(** * Sliding-window optimisation pass (src/SlidingWindow.cpp)

    A shallow embedding of the sliding-window lowering pass and the
    properties of it that the specification states.

    The pass works on the compiler's expression / statement trees.  The
    tree types, the generic visitor / mutator base classes and the
    analyses the pass calls (simplifier, prover, monotonicity oracle,
    interval solver, substitution, box query, fresh names, logger) live
    in other files of the compiler; the trees are declared here with the
    node kinds the pass touches, and the analyses are section variables. *)

From Stdlib Require Import ZArith.
From stdpp Require Import gmap strings list fin_maps pretty.

Set Warnings "-register-all".

Local Open Scope Z_scope.
Local Open Scope string_scope.

(** ** Expression trees *)

Inductive BinaryOp : Type :=
| OpAdd | OpSub | OpMul | OpDiv | OpMod | OpMin | OpMax
| OpEQ | OpNE | OpLT | OpLE | OpGT | OpGE | OpAnd | OpOr.

(** Modelled from the spec: the expression tree of IR.h, a recursively
    defined term with tagged node kinds (variable reference, integer
    literal, arithmetic / comparison / logical operators, let-binding,
    conditional-select, call).  [Bin op a b] stands for the binary node
    classes (Add, Sub, ..., GE), which differ only by their tag.  All
    variables the pass creates have type Int(32); types are not
    tracked. *)
Inductive Expr : Type :=
| IntImm (value : Z)
| Var (name : string)
| Bin (op : BinaryOp) (a b : Expr)
| Not (a : Expr)
| Select (condition true_value false_value : Expr)
| Let (name : string) (value body : Expr)
| Call (name : string) (args : list Expr).

Abbreviation Add := (Bin OpAdd).
Abbreviation Sub := (Bin OpSub).
Abbreviation Mul := (Bin OpMul).
Abbreviation Min := (Bin OpMin).
Abbreviation Max := (Bin OpMax).
Abbreviation EQ := (Bin OpEQ).
Abbreviation LE := (Bin OpLE).
Abbreviation GE := (Bin OpGE).

(** [likely_if_innermost(e)] of IROperator.h: a pure intrinsic call. *)
Definition likely_if_innermost (e : Expr) : Expr :=
  Call "likely_if_innermost" [e].

(** [is_const_one] of IROperator.h on the integer fragment. *)
Definition is_const_one (e : Expr) : bool :=
  match e with
  | IntImm 1 => true
  | _ => false
  end.

(** ** ExprDependsOnVar (lines 26-58) *)

(** Modelled from the spec: the visitor base class (IRVisitor.cpp), which
    visits every child.  The two overrides are from the source: the
    visitor sets [result] when it meets the variable, and the body of a
    [Let] that rebinds [var] is skipped. *)
Fixpoint expr_depends_on_var (e : Expr) (v : string) : bool :=
  match e with
  | IntImm _ => false
  | Var name => bool_decide (name = v)
  | Bin _ a b => expr_depends_on_var a v || expr_depends_on_var b v
  | Not a => expr_depends_on_var a v
  | Select c t f =>
      expr_depends_on_var c v || expr_depends_on_var t v
      || expr_depends_on_var f v
  | Let name value body =>
      expr_depends_on_var value v
      || (if bool_decide (name = v) then false
          else expr_depends_on_var body v)
  | Call _ args => existsb (fun a => expr_depends_on_var a v) args
  end.

(** ** Scope<Expr> (Scope.h): a stack of bindings per name *)

Abbreviation Scope := (gmap string (list Expr)).

Definition scope_contains (s : Scope) (name : string) : bool :=
  match s !! name with
  | Some (_ :: _) => true
  | _ => false
  end.

Definition scope_find (s : Scope) (name : string) : option Expr :=
  match s !! name with
  | Some (e :: _) => Some e
  | _ => None
  end.

Definition scope_push (name : string) (value : Expr) (s : Scope) : Scope :=
  <[name := value :: default [] (s !! name)]> s.

(** ** ExpandExpr / expand_expr (lines 60-86) *)

(** Modelled from the spec: the mutator base class (IRMutator.cpp), whose
    default is to recurse into every child and rebuild the node.  The
    source overrides the variable case only (lines 64-72): a name the
    scope contains is replaced by its binding. *)
Fixpoint expand_expr (e : Expr) (scope : Scope) : Expr :=
  match e with
  | IntImm _ => e
  | Var name =>
      match scope_find scope name with
      | Some expr => expr
      | None => e
      end
  | Bin op a b => Bin op (expand_expr a scope) (expand_expr b scope)
  | Not a => Not (expand_expr a scope)
  | Select c t f =>
      Select (expand_expr c scope) (expand_expr t scope)
             (expand_expr f scope)
  | Let name value body =>
      Let name (expand_expr value scope) (expand_expr body scope)
  | Call name args => Call name (map (fun a => expand_expr a scope) args)
  end.

(** ** Evaluation of integer expressions

    Int(32) arithmetic with its wrap-around, used to state what the
    rewritten loop bounds denote. *)

Definition wrap32 (z : Z) : Z := (z + 2 ^ 31) mod 2 ^ 32 - 2 ^ 31.

Definition in_int32 (z : Z) : Prop := - 2 ^ 31 <= z < 2 ^ 31.

Definition eval_bin (op : BinaryOp) (x y : Z) : option Z :=
  match op with
  | OpAdd => Some (wrap32 (x + y))
  | OpSub => Some (wrap32 (x - y))
  | OpMul => Some (wrap32 (x * y))
  | OpMin => Some (Z.min x y)
  | OpMax => Some (Z.max x y)
  | OpEQ => Some (if bool_decide (x = y) then 1 else 0)
  | OpNE => Some (if bool_decide (x = y) then 0 else 1)
  | OpLT => Some (if bool_decide (x < y) then 1 else 0)
  | OpLE => Some (if bool_decide (x <= y) then 1 else 0)
  | OpGT => Some (if bool_decide (y < x) then 1 else 0)
  | OpGE => Some (if bool_decide (y <= x) then 1 else 0)
  | OpAnd => Some (if bool_decide (x = 0) then 0 else y)
  | OpOr => Some (if bool_decide (x = 0) then y else x)
  | OpDiv | OpMod => None
  end.

Fixpoint eval (env : gmap string Z) (e : Expr) : option Z :=
  match e with
  | IntImm v => Some v
  | Var name => env !! name
  | Bin op a b =>
      match eval env a, eval env b with
      | Some x, Some y => eval_bin op x y
      | _, _ => None
      end
  | Not a =>
      match eval env a with
      | Some x => Some (if bool_decide (x = 0) then 1 else 0)
      | None => None
      end
  | Select c t f =>
      match eval env c with
      | Some x => if bool_decide (x = 0) then eval env f else eval env t
      | None => None
      end
  | Let name value body =>
      match eval env value with
      | Some x => eval (<[name := x]> env) body
      | None => None
      end
  | Call _ _ => None
  end.

(** [let x = 1 in x], and a scope in which an enclosing binding gives x
    the value 5. *)
Definition shadow_expr : Expr := Let "x" (IntImm 1) (Var "x").
Definition shadow_scope : Scope := scope_push "x" (IntImm 5) ∅.


(** ** Statement trees *)

Inductive ForType : Type :=
| Serial | Parallel | Vectorized | Unrolled
| Extern | GPUBlock | GPUThread | GPULane.

Inductive DeviceAPI : Type :=
| DeviceNone | DeviceHost | DeviceDefaultGPU | DeviceCUDA | DeviceOpenCL
| DeviceMetal | DeviceHexagon.

(** Modelled from the spec: the statement tree of IR.h (producer/consumer
    marker, loop, symbolic-binding statement, conditional, sequencing,
    storage-allocation scope, semaphore acquisition, store into a stage,
    evaluation).  An undefined [else_case] is [None]. *)
Inductive Stmt : Type :=
| ProducerConsumer (name : string) (is_producer : bool) (body : Stmt)
| For (name : string) (min extent : Expr) (for_type : ForType)
      (device_api : DeviceAPI) (body : Stmt)
| LetStmt (name : string) (value : Expr) (body : Stmt)
| IfThenElse (condition : Expr) (then_case : Stmt) (else_case : option Stmt)
| Block (first rest : Stmt)
| Realize (name : string) (bounds : list (Expr * Expr)) (condition : Expr)
          (body : Stmt)
| Acquire (semaphore count : Expr) (body : Stmt)
| Provide (name : string) (values args : list Expr)
| Evaluate (value : Expr).

(** ** FindProduce / find_produce (lines 88-111) *)

(** Modelled from the spec: the visitor base class (IRVisitor.cpp), which
    visits every child.  FindProduce overrides the producer/consumer
    case: a producer of [func] is a hit, anything else is descended. *)
Fixpoint find_produce (s : Stmt) (func : string) : bool :=
  match s with
  | ProducerConsumer name is_producer body =>
      if is_producer && bool_decide (name = func) then true
      else find_produce body func
  | For _ _ _ _ _ body => find_produce body func
  | LetStmt _ _ body => find_produce body func
  | IfThenElse _ t e =>
      find_produce t func
      || match e with
         | Some e' => find_produce e' func
         | None => false
         end
  | Block a b => find_produce a func || find_produce b func
  | Realize _ _ _ body => find_produce body func
  | Acquire _ _ body => find_produce body func
  | Provide _ _ _ => false
  | Evaluate _ => false
  end.

(** ** Stages (Function.h, Definition.h) *)

(** Modelled from the spec: a stage has a name, an ordered list of
    dimension argument names, a primary definition and ordered update
    definitions; a definition has argument expressions and
    specializations, each a condition with a definition of its own. *)

Inductive FuncDef : Type :=
| MkDef (args : list Expr) (specializations : list Specialization)
with Specialization : Type :=
| MkSpec (condition : Expr) (definition : FuncDef).

Definition def_args (d : FuncDef) : list Expr :=
  match d with MkDef a _ => a end.

Definition def_specializations (d : FuncDef) : list Specialization :=
  match d with MkDef _ s => s end.

(** A loop level of the schedule (Schedule.h): the stage and the loop
    variable it names. *)
Record LoopLevel : Type := { level_func : string; level_var : string }.

#[global] Instance LoopLevel_eq_dec : EqDecision LoopLevel.
Proof. solve_decision. Defined.

Record Function : Type := {
  func_name : string;
  func_args : list string;
  func_definition : FuncDef;
  func_updates : list FuncDef;
  compute_level : LoopLevel;
  store_level : LoopLevel
}.

Definition func_dimensions (f : Function) : nat := length (func_args f).

(** ** Intervals (Interval.h) *)

Record Interval : Type := { i_min : Expr; i_max : Expr }.

(** The unbounded ends are two distinguished variable nodes. *)
Definition pos_inf : Expr := Var "pos_inf".
Definition neg_inf : Expr := Var "neg_inf".

(** [has_upper_bound] is [!max.same_as(pos_inf)]; identity with the
    sentinel node is identity of its name. *)
Definition has_upper_bound (i : Interval) : bool :=
  match i_max i with
  | Var n => negb (bool_decide (n = "pos_inf"))
  | _ => true
  end.

Inductive Monotonic : Type := Constant | Increasing | Decreasing | Unknown.

Definition is_constant (m : Monotonic) : bool :=
  match m with
  | Constant => true
  | _ => false
  end.

(** ** Outcomes and state *)

(** A run either finishes with a value and a state, or compilation stops:
    an [internal_assert] fails, or the source indexes out of range or
    dereferences a null node.  [OutOfFuel] belongs to the model alone: the
    recursion bound of [driver_mutate] below was too small. *)
Inductive Failure : Type :=
| InternalAssert
| UndefinedBehaviour
| OutOfFuel.

Inductive Outcome (S A : Type) : Type :=
| Done (a : A) (s : S)
| Failed (f : Failure).
Arguments Done {S A} a s.
Arguments Failed {S A} f.

(** Process-wide state: the compiler logger (absent when
    [get_compiler_logger()] is null) with the records it has received, and
    the counter behind [unique_name]. *)
Record Globals : Type := {
  logger : option (list (string * Expr));
  name_counter : nat
}.

(** The members of one SlidingWindowOnFunctionAndLoop object, next to the
    globals.  The scope is passed down the recursion: a ScopedBinding
    lives exactly as long as the visit of the body. *)
Record SliderState : Type := {
  replacements : gmap string Expr;
  new_loop_min : option Expr;
  globals : Globals
}.

Definition M (S A : Type) : Type := S -> Outcome S A.

Definition ret {S A} (a : A) : M S A := fun s => Done a s.

Definition bind {S A B} (m : M S A) (k : A -> M S B) : M S B :=
  fun s =>
    match m s with
    | Done a s' => k a s'
    | Failed f => Failed f
    end.

Definition fail {S A} (f : Failure) : M S A := fun _ => Failed f.

Notation "'do' x <- m ; k" := (bind m (fun x => k))
  (at level 10, x name, m at level 100, k at level 200).

Definition record_non_monotonic_loop_var (v : string) (e : Expr)
    (g : Globals) : Globals :=
  match logger g with
  | Some records =>
      {| logger := Some (records ++ [(v, e)])%list;
         name_counter := name_counter g |}
  | None => g
  end.

(** ** is_dim_always_pure (lines 125-140) *)

Definition is_var_named (e : Expr) (dim : string) : bool :=
  match e with
  | Var name => bool_decide (name = dim)
  | _ => false
  end.

(** The loop of lines 133-138 over [def.specializations()], the recursive
    call being [pure_in]; it leaves at the first specialization that is
    not pure. *)
Fixpoint specializations_pure (pure_in : FuncDef -> option bool)
    (l : list Specialization) : option bool :=
  match l with
  | [] => Some true
  | MkSpec _ d :: l' =>
      match pure_in d with
      | None => None
      | Some false => Some false
      | Some true => specializations_pure pure_in l'
      end
  end.

(** [None] when [def.args()[dim_idx]] is out of range. *)
Fixpoint is_dim_always_pure (def : FuncDef) (dim : string) (dim_idx : nat)
    {struct def} : option bool :=
  match def with
  | MkDef args specializations =>
      match args !! dim_idx with
      | None => None
      | Some a =>
          if negb (is_var_named a dim) then Some false
          else
            specializations_pure
              (fun d => is_dim_always_pure d dim dim_idx) specializations
      end
  end.

(** The loop of lines 206-212 over [func.updates()], leaving at the first
    definition that is not pure. *)
Fixpoint updates_pure (updates : list FuncDef) (dim : string)
    (dim_idx : nat) : option bool :=
  match updates with
  | [] => Some true
  | def :: rest =>
      match is_dim_always_pure def dim dim_idx with
      | None => None
      | Some false => Some false
      | Some true => updates_pure rest dim dim_idx
      end
  end.

(** The locals [dim], [dim_idx], [min_required], [max_required] of the
    producer visit; an undefined Expr is [None]. *)
Record DimChoice : Type := {
  dim : string;
  dim_idx : nat;
  min_required : option Expr;
  max_required : option Expr
}.

Definition no_dim : DimChoice :=
  {| dim := ""; dim_idx := 0; min_required := None; max_required := None |}.

Definition string_empty (s : string) : bool :=
  match s with
  | EmptyString => true
  | String _ _ => false
  end.

(** ** The analyses of the rest of the compiler

    Monotonic.h, Simplify.h, Solve.h, Substitute.h, UnsafePromises.h,
    IROperator.h, IREquality.h, Bounds.h and Util.h.  The pass only
    consumes their results. *)
Class Analyses : Type := {
  is_monotonic : Expr -> string -> Monotonic;
  can_prove : Expr -> bool;
  simplify : Expr -> Expr;
  solve_for_inner_interval : Expr -> string -> Interval;
  (** [substitute(name, replacement, expr)] *)
  substitute : string -> Expr -> Expr -> Expr;
  (** [substitute(map, stmt)] *)
  substitute_map : gmap string Expr -> Stmt -> Stmt;
  lower_safe_promises : Expr -> Expr;
  is_pure : Expr -> bool;
  equal : Expr -> Expr -> bool;
  box_provided : Stmt -> string -> list Interval;
  (** [unique_name('x')] at a given value of the global counter *)
  unique_name : nat -> string
}.

(** ** SlidingWindowOnFunctionAndLoop (lines 113-431) *)

Section SlidingWindowOnFunctionAndLoop.

Context {an : Analyses}.

(** The constructor arguments. *)
Variable func : Function.
Variable loop_var : string.
Variable loop_min : Expr.

Definition stage_prefix : string :=
  func_name func +:+ ".s" +:+ pretty (length (func_updates func)) +:+ ".".

(** Lines 164-169: the region required of one dimension of the last
    stage, expanded; [None] when the [internal_assert] fails. *)
Definition region_required (scope : Scope) (arg : string)
    : option (Expr * Expr) :=
  let var := stage_prefix +:+ arg in
  if scope_contains scope (var +:+ ".min")
     && scope_contains scope (var +:+ ".max")
  then
    match scope_find scope (var +:+ ".min"),
          scope_find scope (var +:+ ".max") with
    | Some min_req, Some max_req =>
        Some (expand_expr min_req scope, expand_expr max_req scope)
    | _, _ => None
    end
  else None.

Definition depends_on_loop_var (r : Expr * Expr) : bool :=
  expr_depends_on_var (fst r) loop_var
  || expr_depends_on_var (snd r) loop_var.

(** The loop of lines 162-195 from index [i] on, [rest] being
    [func_args[i..]]; the [break] ends the recursion. *)
Fixpoint choose_dim (scope : Scope) (i : nat) (rest : list string)
    (c : DimChoice) : option DimChoice :=
  match rest with
  | [] => Some c
  | arg :: rest' =>
      match region_required scope arg with
      | None => None
      | Some r =>
          if depends_on_loop_var r then
            if negb (string_empty (dim c)) then
              Some {| dim := ""; dim_idx := dim_idx c;
                      min_required := None; max_required := None |}
            else
              choose_dim scope (S i) rest'
                {| dim := arg; dim_idx := i;
                   min_required := Some (fst r);
                   max_required := Some (snd r) |}
          else if negb (bool_decide (is_Some (min_required c)))
                  && (i =? func_dimensions func - 1)%nat
                  && is_pure (fst r) && is_pure (snd r)
          then
            choose_dim scope (S i) rest'
              {| dim := arg; dim_idx := i;
                 min_required := Some (fst r);
                 max_required := Some (snd r) |}
          else choose_dim scope (S i) rest' c
      end
  end.

Definition select_dim (scope : Scope) : option DimChoice :=
  choose_dim scope 0 (func_args func) no_dim.

(** Lines 220-242. *)
Definition can_slide_up (min_req : Expr) : bool :=
  match is_monotonic min_req loop_var with
  | Increasing | Constant => true
  | _ => false
  end.

Definition can_slide_down (max_req : Expr) : bool :=
  match is_monotonic max_req loop_var with
  | Decreasing | Constant => true
  | _ => false
  end.

Definition log_if_unknown (e : Expr) (g : Globals) : Globals :=
  match is_monotonic e loop_var with
  | Unknown => record_non_monotonic_loop_var loop_var e g
  | _ => g
  end.

(** Lines 260-263. *)
Definition loop_var_expr : Expr := Var loop_var.

Definition prev_max_plus_one (max_req : Expr) : Expr :=
  Add (substitute loop_var (Sub loop_var_expr (IntImm 1)) max_req)
      (IntImm 1).

Definition prev_min_minus_one (min_req : Expr) : Expr :=
  Sub (substitute loop_var (Sub loop_var_expr (IntImm 1)) min_req)
      (IntImm 1).

(** Lines 266-267. *)
Definition no_overlap (min_req max_req : Expr) : bool :=
  can_prove (GE min_req (prev_max_plus_one max_req))
  || can_prove (LE max_req (prev_min_minus_one min_req)).

(** Lines 279-290. *)
Definition new_loop_min_eq (up : bool) (new_loop_min_var : Expr)
    (min_req max_req : Expr) : Expr :=
  if up then
    EQ (substitute loop_var loop_min min_req)
       (substitute loop_var new_loop_min_var (prev_max_plus_one max_req))
  else
    EQ (substitute loop_var loop_min max_req)
       (substitute loop_var new_loop_min_var (prev_min_minus_one min_req)).

Definition solve_new_loop_min (up : bool) (new_loop_min_name : string)
    (min_req max_req : Expr) : Interval :=
  solve_for_inner_interval
    (lower_safe_promises
       (new_loop_min_eq up (Var new_loop_min_name) min_req max_req))
    new_loop_min_name.

(** Line 292. *)
Definition single_point (r : Interval) : bool :=
  has_upper_bound r && equal (i_min r) (i_max r).

(** Lines 300-306 and 312-318: the pair ([new_min], [new_max]). *)
Definition exact_bounds (up : bool) (min_req max_req : Expr)
    : Expr * Expr :=
  if up then (prev_max_plus_one max_req, max_req)
  else (min_req, prev_min_minus_one min_req).

Definition guarded_bounds (up : bool) (min_req max_req : Expr)
    : Expr * Expr :=
  if up then
    (Select (LE loop_var_expr loop_min) min_req
            (likely_if_innermost (prev_max_plus_one max_req)),
     max_req)
  else
    (min_req,
     Select (LE loop_var_expr loop_min) max_req
            (likely_if_innermost (prev_min_minus_one min_req))).

(** Lines 331-341. *)
Definition redefine_region (up : bool) (d : string)
    (new_min new_max : Expr) (r : gmap string Expr) : gmap string Expr :=
  if up then <[stage_prefix +:+ d +:+ ".min" := new_min]> r
  else <[stage_prefix +:+ d +:+ ".max" := new_max]> r.

Definition alias_update_stage (d : string) (r : gmap string Expr)
    (i : nat) : gmap string Expr :=
  let n := func_name func +:+ ".s" +:+ pretty i +:+ "." +:+ d in
  <[n +:+ ".max" := Var (stage_prefix +:+ d +:+ ".max")]>
    (<[n +:+ ".min" := Var (stage_prefix +:+ d +:+ ".min")]> r).

Definition alias_update_stages (d : string) (r : gmap string Expr)
    : gmap string Expr :=
  foldl (alias_update_stage d) r (seq 0 (length (func_updates func))).

(** Lines 349-360; [None] when [b[dim_idx]] is out of range. *)
Definition cover_earlier_stages (up : bool) (d : string) (idx : nat)
    (op_body : Stmt) (stmt : Stmt) : option Stmt :=
  match func_updates func with
  | [] => Some stmt
  | _ :: _ =>
      match box_provided op_body (func_name func) !! idx with
      | None => None
      | Some b =>
          if up then
            let n := stage_prefix +:+ d +:+ ".min" in
            Some (LetStmt n (Min (Var n) (i_min b)) stmt)
          else
            let n := stage_prefix +:+ d +:+ ".max" in
            Some (LetStmt n (Max (Var n) (i_max b)) stmt)
      end
  end.

(** Lines 277-361, entered once a direction is known and the overlap
    guard has let the producer through. *)
Definition rewrite_bounds (d : string) (idx : nat)
    (min_req max_req : Expr) (op_body stmt : Stmt)
    : M SliderState Stmt :=
  fun st =>
    let up := can_slide_up min_req in
    let new_loop_min_name := unique_name (name_counter (globals st)) in
    let g := {| logger := logger (globals st);
                name_counter := S (name_counter (globals st)) |} in
    let solve_result :=
      solve_new_loop_min up new_loop_min_name min_req max_req in
    let after_solve : option (option Expr * (Expr * Expr)) :=
      if single_point solve_result then
        match new_loop_min st with
        | Some _ => None
        | None =>
            let m := simplify (i_max solve_result) in
            Some (if equal m loop_min then None else Some m,
                  exact_bounds up min_req max_req)
        end
      else Some (new_loop_min st, guarded_bounds up min_req max_req)
    in
    match after_solve with
    | None => Failed InternalAssert
    | Some (nlm, (new_min, new_max)) =>
        match cover_earlier_stages up d idx op_body stmt with
        | None => Failed UndefinedBehaviour
        | Some stmt' =>
            Done stmt'
              {| replacements :=
                   alias_update_stages d
                     (redefine_region up d new_min new_max
                        (replacements st));
                 new_loop_min := nlm;
                 globals := g |}
        end
    end.

(** Lines 220-275: direction decision and overlap guard. *)
Definition slide (d : string) (idx : nat) (min_req max_req : Expr)
    (op_body stmt : Stmt) : M SliderState Stmt :=
  fun st =>
    let g := log_if_unknown max_req (log_if_unknown min_req (globals st)) in
    let st' := {| replacements := replacements st;
                  new_loop_min := new_loop_min st;
                  globals := g |} in
    if negb (can_slide_up min_req) && negb (can_slide_down max_req) then
      Done stmt st'
    else if no_overlap min_req max_req then Done stmt st'
    else rewrite_bounds d idx min_req max_req op_body stmt st'.

(** Lines 147-361: the visit of a producer node of [func]. *)
Definition visit_producer (scope : Scope) (op_name : string)
    (op_body : Stmt) : M SliderState Stmt :=
  fun st =>
    let stmt := ProducerConsumer op_name true op_body in
    match select_dim scope with
    | None => Failed InternalAssert
    | Some c =>
        match min_required c with
        | None => Done stmt st
        | Some min_req =>
            match max_required c with
            | None => Failed UndefinedBehaviour
            | Some max_req =>
                match updates_pure (func_updates func) (dim c)
                                   (dim_idx c) with
                | None => Failed UndefinedBehaviour
                | Some false => Done stmt st
                | Some true =>
                    slide (dim c) (dim_idx c) min_req max_req
                          op_body stmt st
                end
            end
        end
    end.

(** Lines 367-369. *)
Definition warmup_guard : Expr :=
  likely_if_innermost
    (GE loop_var_expr (Var (loop_var +:+ ".loop_min.orig"))).

(** Lines 406-423, the recursion into the body being [rec]. *)
Definition visit_LetStmt (rec : Scope -> Stmt -> M SliderState Stmt)
    (scope : Scope) (name : string) (value : Expr) (body : Stmt)
    : M SliderState Stmt :=
  do new_body <-
    rec (scope_push name (simplify (expand_expr value scope)) scope) body;
  fun st =>
    match replacements st !! name with
    | Some v =>
        Done (LetStmt name v new_body)
             {| replacements := delete name (replacements st);
                new_loop_min := new_loop_min st;
                globals := globals st |}
    | None => Done (LetStmt name value new_body) st
    end.

(** Modelled from the spec: the mutator base class (IRMutator.cpp), which
    rebuilds a node from its mutated children; no expression visit is
    overridden, so expressions come back as they are.  The overrides are
    from the source: lines 142-146 and 362-379 (producer/consumer),
    382-404 (loops), 406-423 (bindings). *)
Fixpoint mutate (scope : Scope) (s : Stmt) {struct s}
    : M SliderState Stmt :=
  match s with
  | ProducerConsumer name is_producer body =>
      if is_producer then
        if negb (bool_decide (name = func_name func)) then
          do body' <- mutate scope body;
          ret (ProducerConsumer name is_producer body')
        else visit_producer scope name body
      else
        fun st =>
          if negb (find_produce s (func_name func))
             && bool_decide (is_Some (new_loop_min st))
          then
            (do body' <- mutate scope body;
             ret (ProducerConsumer name false
                    (IfThenElse warmup_guard body' None))) st
          else
            (do body' <- mutate scope body;
             ret (ProducerConsumer name is_producer body')) st
  | For name min extent for_type device_api body =>
      let min' := expand_expr min scope in
      let extent' := expand_expr extent scope in
      if is_const_one extent' then
        do s' <- visit_LetStmt mutate scope name min' body;
        match s' with
        | LetStmt _ _ l_body =>
            ret (For name min extent for_type device_api l_body)
        | _ => fail InternalAssert
        end
      else if negb (is_constant (is_monotonic min' loop_var))
              || negb (is_constant (is_monotonic extent' loop_var))
      then ret s
      else
        do body' <- mutate scope body;
        ret (For name min extent for_type device_api body')
  | LetStmt name value body => visit_LetStmt mutate scope name value body
  | IfThenElse c t e =>
      do t' <- mutate scope t;
      match e with
      | Some e0 =>
          do e' <- mutate scope e0;
          ret (IfThenElse c t' (Some e'))
      | None => ret (IfThenElse c t' None)
      end
  | Block a b =>
      do a' <- mutate scope a;
      do b' <- mutate scope b;
      ret (Block a' b')
  | Realize name bounds c body =>
      do body' <- mutate scope body;
      ret (Realize name bounds c body')
  | Acquire sem cnt body =>
      do body' <- mutate scope body;
      ret (Acquire sem cnt body')
  | Provide _ _ _ => ret s
  | Evaluate _ => ret s
  end.

End SlidingWindowOnFunctionAndLoop.

(** ** SlidingWindowOnFunction (lines 433-507) *)

(** Line 461: [substr(0, length() - 2) + "ax"]; the length is unsigned, so
    on a name shorter than two characters the count wraps and [substr]
    returns the whole name. *)
Definition loop_max_name_of (min_name : string) : string :=
  (if (String.length min_name <? 2)%nat then min_name
   else String.substring 0 (String.length min_name - 2) min_name) +:+ "ax".

Definition serial_or_unrolled (t : ForType) : bool :=
  match t with
  | Serial | Unrolled => true
  | _ => false
  end.

(** The locals of the loop visit after line 465: [new_body],
    [new_loop_name], and [new_loop_min] with [new_loop_extent] (defined
    together or not at all). *)
Record LoopSlide : Type := {
  ls_body : Stmt;
  ls_name : string;
  ls_min_extent : option (Expr * Expr)
}.

Section SlidingWindowOnFunction.

Context {an : Analyses}.
Variable func : Function.

Definition fresh_slider (g : Globals) : SliderState :=
  {| replacements := ∅; new_loop_min := None; globals := g |}.

(** Lines 442-465.  A null [op->min.as<Variable>()] is dereferenced when
    the loop minimum is not a variable. *)
Definition slide_over_loop (name : string) (min : Expr)
    (for_type : ForType) (body : Stmt) : M Globals LoopSlide :=
  fun g =>
    if serial_or_unrolled for_type then
      match mutate func name min ∅ body (fresh_slider g) with
      | Failed f => Failed f
      | Done new_body st =>
          match new_loop_min st with
          | None =>
              Done {| ls_body := new_body; ls_name := name;
                      ls_min_extent := None |} (globals st)
          | Some slider_min =>
              match min with
              | Var min_name =>
                  let new_loop_name := name +:+ ".n" in
                  let loop_max := Var (loop_max_name_of min_name) in
                  Done {| ls_body := new_body;
                          ls_name := new_loop_name;
                          ls_min_extent :=
                            Some (slider_min,
                                  Add (Sub loop_max
                                         (Var (new_loop_name
                                               +:+ ".loop_min")))
                                      (IntImm 1)) |}
                       (globals st)
              | _ => Failed UndefinedBehaviour
              end
          end
      end
    else
      Done {| ls_body := body; ls_name := name; ls_min_extent := None |} g.

(** Lines 474-478. *)
Definition renames (name new_loop_name : string) : gmap string Expr :=
  <[name +:+ ".loop_min" := Var (new_loop_name +:+ ".loop_min")]>
    (<[name +:+ ".loop_extent" := Var (new_loop_name +:+ ".loop_extent")]>
       (<[name := Var new_loop_name]> ∅)).

(** Lines 491-498. *)
Definition wrap_new_loop (new_loop_name : string)
    (slider_min new_loop_extent : Expr) (new_for : Stmt) : Stmt :=
  LetStmt (new_loop_name +:+ ".loop_min") slider_min
    (LetStmt (new_loop_name +:+ ".loop_min.orig")
       (Var (new_loop_name +:+ ".loop_min"))
       (LetStmt (new_loop_name +:+ ".loop_extent") new_loop_extent
          (LetStmt (new_loop_name +:+ ".loop_max")
             (Sub (Add (Var (new_loop_name +:+ ".loop_min"))
                       (Var (new_loop_name +:+ ".loop_extent")))
                  (IntImm 1))
             new_for))).

(** Lines 439-501, the recursive [mutate(new_body)] being [rec]. *)
Definition visit_For (rec : Stmt -> M Globals Stmt) (name : string)
    (min extent : Expr) (for_type : ForType) (device_api : DeviceAPI)
    (body : Stmt) : M Globals Stmt :=
  do r <- slide_over_loop name min for_type body;
  let renamed := negb (bool_decide (ls_name r = name)) in
  let new_min :=
    if renamed then Var (ls_name r +:+ ".loop_min") else min in
  let new_extent :=
    if renamed then Var (ls_name r +:+ ".loop_extent") else extent in
  let new_body :=
    if renamed then substitute_map (renames name (ls_name r)) (ls_body r)
    else ls_body r in
  do new_body' <- rec new_body;
  let new_for :=
    For (ls_name r) new_min new_extent for_type device_api new_body' in
  match ls_min_extent r with
  | Some (slider_min, new_loop_extent) =>
      ret (wrap_new_loop (ls_name r) slider_min new_loop_extent new_for)
  | None => ret new_for
  end.

(** Modelled from the spec: the mutator base class (IRMutator.cpp), which
    rebuilds a node from its mutated children.  The loop visit is the
    override of the source; it recurses into a rewritten body, so the
    recursion is bounded by [fuel], and [OutOfFuel] is an artefact of the
    bound, not a behaviour of the pass. *)
Fixpoint driver_mutate (fuel : nat) (s : Stmt) {struct fuel}
    : M Globals Stmt :=
  match fuel with
  | O => fail OutOfFuel
  | S fuel' =>
      match s with
      | For name min extent for_type device_api body =>
          visit_For (driver_mutate fuel') name min extent for_type
                    device_api body
      | ProducerConsumer name is_producer body =>
          do body' <- driver_mutate fuel' body;
          ret (ProducerConsumer name is_producer body')
      | LetStmt name value body =>
          do body' <- driver_mutate fuel' body;
          ret (LetStmt name value body')
      | IfThenElse c t e =>
          do t' <- driver_mutate fuel' t;
          match e with
          | Some e0 =>
              do e' <- driver_mutate fuel' e0;
              ret (IfThenElse c t' (Some e'))
          | None => ret (IfThenElse c t' None)
          end
      | Block a b =>
          do a' <- driver_mutate fuel' a;
          do b' <- driver_mutate fuel' b;
          ret (Block a' b')
      | Realize name bounds c body =>
          do body' <- driver_mutate fuel' body;
          ret (Realize name bounds c body')
      | Acquire sem cnt body =>
          do body' <- driver_mutate fuel' body;
          ret (Acquire sem cnt body')
      | Provide _ _ _ => ret s
      | Evaluate _ => ret s
      end
  end.

End SlidingWindowOnFunction.

(** ** SlidingWindow (lines 509-551) *)

Section SlidingWindow.

Context {an : Analyses}.
Variable env : gmap string Function.

(** Modelled from the spec: the mutator base class (IRMutator.cpp), which
    rebuilds a node from its mutated children.  The visit of a Realize
    node is the override of the source (lines 515-545); [fuel] bounds
    each run of the per-stage driver. *)
Fixpoint program_mutate (fuel : nat) (s : Stmt) {struct s}
    : M Globals Stmt :=
  match s with
  | Realize name bounds c body =>
      match env !! name with
      | None =>
          do body' <- program_mutate fuel body;
          ret (Realize name bounds c body')
      | Some f =>
          if bool_decide (compute_level f = store_level f) then
            do body' <- program_mutate fuel body;
            ret (Realize name bounds c body')
          else
            do new_body <- program_mutate fuel body;
            do new_body' <- driver_mutate f fuel new_body;
            ret (Realize name bounds c new_body')
      end
  | ProducerConsumer name is_producer body =>
      do body' <- program_mutate fuel body;
      ret (ProducerConsumer name is_producer body')
  | For name min extent for_type device_api body =>
      do body' <- program_mutate fuel body;
      ret (For name min extent for_type device_api body')
  | LetStmt name value body =>
      do body' <- program_mutate fuel body;
      ret (LetStmt name value body')
  | IfThenElse c t e =>
      do t' <- program_mutate fuel t;
      match e with
      | Some e0 =>
          do e' <- program_mutate fuel e0;
          ret (IfThenElse c t' (Some e'))
      | None => ret (IfThenElse c t' None)
      end
  | Block a b =>
      do a' <- program_mutate fuel a;
      do b' <- program_mutate fuel b;
      ret (Block a' b')
  | Acquire sem cnt body =>
      do body' <- program_mutate fuel body;
      ret (Acquire sem cnt body')
  | Provide _ _ _ => ret s
  | Evaluate _ => ret s
  end.

End SlidingWindow.

(** ** AddLoopMinOrig (lines 553-564) *)

(** Modelled from the spec: the mutator base class (IRMutator.cpp), which
    rebuilds a node from its mutated children.  The loop visit is the
    override of the source: every loop gets a binding of
    [<loop>.loop_min.orig] to the variable [<loop>.loop_min] around it. *)

Fixpoint add_loop_min_orig (s : Stmt) : Stmt :=
  match s with
  | For name min extent for_type device_api body =>
      LetStmt (name +:+ ".loop_min.orig") (Var (name +:+ ".loop_min"))
        (For name min extent for_type device_api (add_loop_min_orig body))
  | ProducerConsumer name is_producer body =>
      ProducerConsumer name is_producer (add_loop_min_orig body)
  | LetStmt name value body => LetStmt name value (add_loop_min_orig body)
  | IfThenElse c t e =>
      IfThenElse c (add_loop_min_orig t)
        match e with
        | Some e0 => Some (add_loop_min_orig e0)
        | None => None
        end
  | Block a b => Block (add_loop_min_orig a) (add_loop_min_orig b)
  | Realize name bounds c body =>
      Realize name bounds c (add_loop_min_orig body)
  | Acquire sem cnt body => Acquire sem cnt (add_loop_min_orig body)
  | Provide _ _ _ => s
  | Evaluate _ => s
  end.

(** ** sliding_window (lines 568-570) *)

Definition sliding_window `{Analyses} (fuel : nat) (s : Stmt)
    (env : gmap string Function) : M Globals Stmt :=
  program_mutate env fuel (add_loop_min_orig s).

(** ** Reference analyses

    A small, sound instance of the analyses, used to run the pass on
    concrete trees: affine forms [v + k], a prover for comparisons of
    affine forms over the same variable, a solver for [lhs == v + k], and
    substitution that respects rebinding. *)
Module Reference.

Definition BinaryOp_tag (o : BinaryOp) : nat :=
  match o with
  | OpAdd => 0 | OpSub => 1 | OpMul => 2 | OpDiv => 3 | OpMod => 4
  | OpMin => 5 | OpMax => 6 | OpEQ => 7 | OpNE => 8 | OpLT => 9
  | OpLE => 10 | OpGT => 11 | OpGE => 12 | OpAnd => 13 | OpOr => 14
  end%nat.

(** Structural equality of expressions (IREquality.h). *)
Fixpoint Expr_eqb (a b : Expr) {struct a} : bool :=
  match a, b with
  | IntImm x, IntImm y => bool_decide (x = y)
  | Var x, Var y => bool_decide (x = y)
  | Bin o a1 a2, Bin o' b1 b2 =>
      (BinaryOp_tag o =? BinaryOp_tag o')%nat
      && Expr_eqb a1 b1 && Expr_eqb a2 b2
  | Not a1, Not b1 => Expr_eqb a1 b1
  | Select c t f, Select c' t' f' =>
      Expr_eqb c c' && Expr_eqb t t' && Expr_eqb f f'
  | Let n v bd, Let n' v' bd' =>
      bool_decide (n = n') && Expr_eqb v v' && Expr_eqb bd bd'
  | Call n l, Call n' l' =>
      bool_decide (n = n')
      && (fix all2 (l l' : list Expr) : bool :=
            match l, l' with
            | [], [] => true
            | x :: r, y :: r' => Expr_eqb x y && all2 r r'
            | _, _ => false
            end) l l'
  | _, _ => false
  end.

(** [affine e = Some (v, k)]: [e] is [k] ([v = None]) or [x + k]
    ([v = Some x]). *)
Fixpoint affine (e : Expr) : option (option string * Z) :=
  match e with
  | IntImm k => Some (None, k)
  | Var x => Some (Some x, 0)
  | Bin OpAdd a b =>
      match affine a, affine b with
      | Some (va, ka), Some (None, kb) => Some (va, ka + kb)
      | Some (None, ka), Some (vb, kb) => Some (vb, ka + kb)
      | _, _ => None
      end
  | Bin OpSub a b =>
      match affine a, affine b with
      | Some (va, ka), Some (None, kb) => Some (va, ka - kb)
      | _, _ => None
      end
  | _ => None
  end.

Definition ref_is_monotonic (e : Expr) (v : string) : Monotonic :=
  if negb (expr_depends_on_var e v) then Constant
  else
    match affine e with
    | Some (Some x, _) => if bool_decide (x = v) then Increasing else Unknown
    | _ => Unknown
    end.

Definition ref_can_prove (e : Expr) : bool :=
  match e with
  | Bin OpGE a b =>
      match affine a, affine b with
      | Some (va, ka), Some (vb, kb) =>
          bool_decide (va = vb) && bool_decide (kb <= ka)
      | _, _ => false
      end
  | Bin OpLE a b =>
      match affine a, affine b with
      | Some (va, ka), Some (vb, kb) =>
          bool_decide (va = vb) && bool_decide (ka <= kb)
      | _, _ => false
      end
  | _ => false
  end.

(** Solves [lhs == v + k] for [v]; no information otherwise. *)
Definition ref_solve (e : Expr) (v : string) : Interval :=
  match e with
  | Bin OpEQ lhs rhs =>
      match affine rhs with
      | Some (Some x, k) =>
          if bool_decide (x = v) && negb (expr_depends_on_var lhs v)
          then {| i_min := Sub lhs (IntImm k); i_max := Sub lhs (IntImm k) |}
          else {| i_min := neg_inf; i_max := pos_inf |}
      | _ => {| i_min := neg_inf; i_max := pos_inf |}
      end
  | _ => {| i_min := neg_inf; i_max := pos_inf |}
  end.

Fixpoint subst_expr (m : gmap string Expr) (e : Expr) : Expr :=
  match e with
  | IntImm _ => e
  | Var x => default e (m !! x)
  | Bin o a b => Bin o (subst_expr m a) (subst_expr m b)
  | Not a => Not (subst_expr m a)
  | Select c t f => Select (subst_expr m c) (subst_expr m t) (subst_expr m f)
  | Let x v b => Let x (subst_expr m v) (subst_expr (delete x m) b)
  | Call n l => Call n (map (subst_expr m) l)
  end.

Fixpoint subst_stmt (m : gmap string Expr) (s : Stmt) : Stmt :=
  match s with
  | ProducerConsumer n p b => ProducerConsumer n p (subst_stmt m b)
  | For n mn ex t d b =>
      For n (subst_expr m mn) (subst_expr m ex) t d
          (subst_stmt (delete n m) b)
  | LetStmt n v b => LetStmt n (subst_expr m v) (subst_stmt (delete n m) b)
  | IfThenElse c t e =>
      IfThenElse (subst_expr m c) (subst_stmt m t)
        match e with
        | Some e0 => Some (subst_stmt m e0)
        | None => None
        end
  | Block a b => Block (subst_stmt m a) (subst_stmt m b)
  | Realize n bs c b =>
      Realize n
        (map (fun r => (subst_expr m (fst r), subst_expr m (snd r))) bs)
        (subst_expr m c) (subst_stmt m b)
  | Acquire sem cnt b =>
      Acquire (subst_expr m sem) (subst_expr m cnt) (subst_stmt m b)
  | Provide n vs args =>
      Provide n (map (subst_expr m) vs) (map (subst_expr m) args)
  | Evaluate v => Evaluate (subst_expr m v)
  end.

Definition analyses : Analyses := {|
  is_monotonic := ref_is_monotonic;
  can_prove := ref_can_prove;
  simplify := fun e => e;
  solve_for_inner_interval := ref_solve;
  substitute := fun name r e => subst_expr {[name := r]} e;
  substitute_map := subst_stmt;
  lower_safe_promises := fun e => e;
  is_pure := fun _ => true;
  equal := Expr_eqb;
  box_provided := fun _ _ => [{| i_min := neg_inf; i_max := pos_inf |}];
  unique_name := fun n => "x" +:+ pretty n
|}.

(** Same analyses with a monotonicity oracle that knows nothing about
    expressions that depend on the variable. *)
Definition blind_analyses : Analyses := {|
  is_monotonic :=
    fun e v => if expr_depends_on_var e v then Unknown else Constant;
  can_prove := ref_can_prove;
  simplify := fun e => e;
  solve_for_inner_interval := ref_solve;
  substitute := fun name r e => subst_expr {[name := r]} e;
  substitute_map := subst_stmt;
  lower_safe_promises := fun e => e;
  is_pure := fun _ => true;
  equal := Expr_eqb;
  box_provided := fun _ _ => [{| i_min := neg_inf; i_max := pos_inf |}];
  unique_name := fun n => "x" +:+ pretty n
|}.

(** Same analyses with a solver that finds nothing. *)
Definition unsolved_analyses : Analyses := {|
  is_monotonic := ref_is_monotonic;
  can_prove := ref_can_prove;
  simplify := fun e => e;
  solve_for_inner_interval :=
    fun _ _ => {| i_min := neg_inf; i_max := pos_inf |};
  substitute := fun name r e => subst_expr {[name := r]} e;
  substitute_map := subst_stmt;
  lower_safe_promises := fun e => e;
  is_pure := fun _ => true;
  equal := Expr_eqb;
  box_provided := fun _ _ => [{| i_min := neg_inf; i_max := pos_inf |}];
  unique_name := fun n => "x" +:+ pretty n
|}.

End Reference.

(** ** Sample pipelines *)

Module Samples.

Definition pure_def : FuncDef := MkDef [Var "x"] [].

(** Computed inside the loop over [y] of the consumer, stored outside
    it. *)
Definition at_y : LoopLevel := {| level_func := "g"; level_var := "y" |}.
Definition at_root : LoopLevel :=
  {| level_func := ""; level_var := "__root" |}.

(** A stage [f(x)] without updates. *)
Definition f : Function := {|
  func_name := "f";
  func_args := ["x"];
  func_definition := pure_def;
  func_updates := [];
  compute_level := at_y;
  store_level := at_root
|}.

(** The same stage with a primary definition that writes at [x*2]. *)
Definition scatter_primary : Function := {|
  func_name := "f";
  func_args := ["x"];
  func_definition := MkDef [Mul (Var "x") (IntImm 2)] [];
  func_updates := [];
  compute_level := at_y;
  store_level := at_root
|}.

(** [f(x)] with one update [f(x) = ...] specialised once, and one with
    a scatter update [f(x*2) = ...]. *)
Definition f_update : Function := {|
  func_name := "f";
  func_args := ["x"];
  func_definition := pure_def;
  func_updates := [MkDef [Var "x"] [MkSpec (Var "c") pure_def]];
  compute_level := at_y;
  store_level := at_root
|}.

Definition f_scatter : Function := {|
  func_name := "f";
  func_args := ["x"];
  func_definition := pure_def;
  func_updates := [MkDef [Mul (Var "x") (IntImm 2)] []];
  compute_level := at_y;
  store_level := at_root
|}.

(** The scope at a producer of a stage with one update: the last
    definition is stage 1. *)
Definition update_scope : Scope :=
  scope_push "f.s1.x.min" (Var "y")
    (scope_push "f.s1.x.max" (Add (Var "y") (IntImm 2)) ∅).

Definition produce_f : Stmt :=
  ProducerConsumer "f" true (Provide "f" [IntImm 0] [Var "x"]).

Definition consume_f : Stmt :=
  ProducerConsumer "f" false (Provide "g" [Var "f"] [Var "y"]).

(** The body of a loop over [y] in which [g] reads [f] on [y, y+2]. *)
Definition stencil_body : Stmt :=
  LetStmt "f.s0.x.max" (Add (Var "y") (IntImm 2))
    (LetStmt "f.s0.x.min" (Var "y")
       (Block produce_f consume_f)).

Definition stencil_loop (t : ForType) : Stmt :=
  For "y" (Var "y.loop_min") (Var "y.loop_extent") t DeviceNone
      stencil_body.

Definition g0 : Globals := {| logger := Some []; name_counter := 0 |}.

Definition no_logger : Globals := {| logger := None; name_counter := 0 |}.

(** The scope at [produce_f] inside [stencil_body]. *)
Definition stencil_scope : Scope :=
  scope_push "f.s0.x.min" (Var "y")
    (scope_push "f.s0.x.max" (Add (Var "y") (IntImm 2)) ∅).

(** A footprint of one row, [y+5, y+5]: adjacent iterations share
    nothing. *)
Definition single_row_scope : Scope :=
  scope_push "f.s0.x.min" (Add (Var "y") (IntImm 5))
    (scope_push "f.s0.x.max" (Add (Var "y") (IntImm 5)) ∅).

Definition single_row_choice : DimChoice :=
  {| dim := "x"; dim_idx := 0;
     min_required := Some (Add (Var "y") (IntImm 5));
     max_required := Some (Add (Var "y") (IntImm 5)) |}.

(** A serial loop over [y] around a vectorized loop over [xi] around
    the stencil. *)
Definition vector_loop : Stmt :=
  For "xi" (IntImm 0) (IntImm 8) Vectorized DeviceNone
      (Block produce_f consume_f).

Definition nested_loops : Stmt :=
  For "y" (Var "y.loop_min") (Var "y.loop_extent") Serial DeviceNone
    (LetStmt "f.s0.x.max" (Add (Var "y") (IntImm 2))
       (LetStmt "f.s0.x.min" (Var "y") vector_loop)).

(** A two-dimensional stage whose bounds all move with the loop, and
    one whose bounds do not move at all. *)
Definition h : Function := {|
  func_name := "h";
  func_args := ["x"; "z"];
  func_definition := MkDef [Var "x"; Var "z"] [];
  func_updates := [];
  compute_level := at_y;
  store_level := at_root
|}.

Definition diagonal_scope : Scope :=
  scope_push "h.s0.x.min" (Var "y")
    (scope_push "h.s0.x.max" (Add (Var "y") (IntImm 2))
       (scope_push "h.s0.z.min" (Var "y")
          (scope_push "h.s0.z.max" (Add (Var "y") (IntImm 1)) ∅))).

Definition fixed_scope : Scope :=
  scope_push "h.s0.x.min" (IntImm 0)
    (scope_push "h.s0.x.max" (IntImm 7)
       (scope_push "h.s0.z.min" (Var "w")
          (scope_push "h.s0.z.max" (Add (Var "w") (IntImm 3)) ∅))).

(** A scope reached at run time by the bindings around a loop that ran
    from 0 to 9. *)
Definition loop_env : gmap string Z :=
  <["y.loop_min" := 0]> (<["y.loop_max" := 9]> ∅).

(** The storage of [f] around the serial stencil loop. *)
Definition stencil_program : Stmt :=
  Realize "f" [(IntImm 0, IntImm 16)] (IntImm 1) (stencil_loop Serial).

(** What the visit of [produce_f] leaves behind for the stage with one
    update, in [update_scope]. *)
Definition update_slid_stmt : Stmt :=
  LetStmt "f.s1.x.min" (Min (Var "f.s1.x.min") (Var "neg_inf")) produce_f.

Definition update_slid_state : SliderState :=
  {| replacements :=
       <["f.s0.x.max" := Var "f.s1.x.max"]>
         (<["f.s0.x.min" := Var "f.s1.x.min"]>
            (<["f.s1.x.min" :=
                 Add (Add (Sub (Var "y") (IntImm 1)) (IntImm 2))
                     (IntImm 1)]> ∅));
     new_loop_min := Some (Sub (Var "y.loop_min") (IntImm 2));
     globals := {| logger := Some []; name_counter := 1 |} |}.

(** A single-trip loop over [xo] around the stencil. *)
Definition single_trip_loop : Stmt :=
  For "xo" (IntImm 0) (IntImm 1) Serial DeviceNone
      (Block produce_f consume_f).

(** A footprint whose max is fixed and whose min moves in a way the
    reference oracle cannot classify. *)
Definition shrinking_scope : Scope :=
  scope_push "f.s0.x.min" (Mul (Var "y") (IntImm 2))
    (scope_push "f.s0.x.max" (IntImm 10) ∅).

Definition shrinking_choice : DimChoice :=
  {| dim := "x"; dim_idx := 0;
     min_required := Some (Mul (Var "y") (IntImm 2));
     max_required := Some (IntImm 10) |}.






Definition stencil_choice : DimChoice :=
  {| dim := "x"; dim_idx := 0;
     min_required := Some (Var "y");
     max_required := Some (Add (Var "y") (IntImm 2)) |}.

End Samples.

(** ** Vocabulary of the statements below *)

Definition with_globals (st : SliderState) (g : Globals) : SliderState :=
  {| replacements := replacements st;
     new_loop_min := new_loop_min st;
     globals := g |}.

(** The state after lines 223-242: the two diagnostics, nothing else. *)
Definition logged `{Analyses} (loop_var : string) (st : SliderState)
    (min_req max_req : Expr) : SliderState :=
  with_globals st
    (log_if_unknown loop_var max_req
       (log_if_unknown loop_var min_req (globals st))).

(** The record the pass hands to the logger for [e], if any. *)
Definition unknown_record `{Analyses} (loop_var : string) (e : Expr)
    : list (string * Expr) :=
  match is_monotonic e loop_var with
  | Unknown => [(loop_var, e)]
  | _ => []
  end.

(** What a nest of bindings denotes: the environment reached after
    entering the first [n] bindings of [s], and the statement below
    them. *)
Fixpoint enter_lets (n : nat) (env : gmap string Z) (s : Stmt)
    : option (gmap string Z * Stmt) :=
  match n with
  | O => Some (env, s)
  | S n' =>
      match s with
      | LetStmt name value body =>
          match eval env value with
          | Some v => enter_lets n' (<[name := v]> env) body
          | None => None
          end
      | _ => None
      end
  end.

(** A dimension's expanded min or max depends on the loop variable. *)
Definition dim_depends (func : Function) (loop_var : string)
    (scope : Scope) (arg : string) : bool :=
  match region_required func scope arg with
  | Some r => depends_on_loop_var loop_var r
  | None => false
  end.

(** The dimensions whose bounds depend on the loop variable. *)
Definition dependent_dims (func : Function) (loop_var : string)
    (scope : Scope) (args : list string) : list string :=
  List.filter (dim_depends func loop_var scope) args.

Definition picked (arg : string) (i : nat) (r : Expr * Expr) : DimChoice :=
  {| dim := arg; dim_idx := i;
     min_required := Some (fst r); max_required := Some (snd r) |}.

Definition spec_definition (s : Specialization) : FuncDef :=
  match s with MkSpec _ d => d end.

(** The purity rule for one definition: the argument at [dim_idx] is the
    variable [dim], in the definition and in every specialization of it,
    at any depth. *)
Inductive always_pure (dim : string) (dim_idx : nat) : FuncDef -> Prop :=
| always_pure_def (args : list Expr) (specs : list Specialization) :
    args !! dim_idx = Some (Var dim) ->
    Forall (fun s => always_pure dim dim_idx (spec_definition s)) specs ->
    always_pure dim dim_idx (MkDef args specs).

(** Every definition and specialization has an argument at [dim_idx]. *)
Inductive indexable (dim_idx : nat) : FuncDef -> Prop :=
| indexable_def (args : list Expr) (specs : list Specialization) :
    is_Some (args !! dim_idx) ->
    Forall (fun s => indexable dim_idx (spec_definition s)) specs ->
    indexable dim_idx (MkDef args specs).

(** The stage with another primary definition. *)
Definition with_primary (func : Function) (primary : FuncDef) : Function :=
  {| func_name := func_name func;
     func_args := func_args func;
     func_definition := primary;
     func_updates := func_updates func;
     compute_level := compute_level func;
     store_level := store_level func |}.

(** Every variable name that occurs in an expression, bound or not. *)
Fixpoint expr_vars (e : Expr) : list string :=
  match e with
  | IntImm _ => []
  | Var name => [name]
  | Bin _ a b => expr_vars a ++ expr_vars b
  | Not a => expr_vars a
  | Select c t f => expr_vars c ++ expr_vars t ++ expr_vars f
  | Let _ value body => expr_vars value ++ expr_vars body
  | Call _ args => concat (map expr_vars args)
  end%list.

(** Nesting depth of a statement. *)
Fixpoint stmt_height (s : Stmt) : nat :=
  match s with
  | ProducerConsumer _ _ body => S (stmt_height body)
  | For _ _ _ _ _ body => S (stmt_height body)
  | LetStmt _ _ body => S (stmt_height body)
  | IfThenElse _ t e =>
      S (Nat.max (stmt_height t)
           match e with
           | Some e0 => stmt_height e0
           | None => 0
           end)
  | Block a b => S (Nat.max (stmt_height a) (stmt_height b))
  | Realize _ _ _ body => S (stmt_height body)
  | Acquire _ _ body => S (stmt_height body)
  | Provide _ _ _ => 1
  | Evaluate _ => 1
  end%nat.

(** The bound name [<stage>.s<i>.<dim><suffix>]. *)
Definition stage_key (stage : string) (i : nat) (d suffix : string)
    : string :=
  (stage +:+ ".s" +:+ pretty i +:+ "." +:+ d) +:+ suffix.

(** Every loop sits directly under a binding of its
    [<loop>.loop_min.orig] to the variable [<loop>.loop_min]. *)
Inductive loops_annotated : Stmt -> Prop :=
| annotated_for name min extent for_type device_api body :
    loops_annotated body ->
    loops_annotated
      (LetStmt (name +:+ ".loop_min.orig") (Var (name +:+ ".loop_min"))
         (For name min extent for_type device_api body))
| annotated_pc name is_producer body :
    loops_annotated body ->
    loops_annotated (ProducerConsumer name is_producer body)
| annotated_let name value body :
    loops_annotated body -> loops_annotated (LetStmt name value body)
| annotated_if c t :
    loops_annotated t -> loops_annotated (IfThenElse c t None)
| annotated_if_else c t e :
    loops_annotated t -> loops_annotated e ->
    loops_annotated (IfThenElse c t (Some e))
| annotated_block a b :
    loops_annotated a -> loops_annotated b -> loops_annotated (Block a b)
| annotated_realize name bounds c body :
    loops_annotated body -> loops_annotated (Realize name bounds c body)
| annotated_acquire sem cnt body :
    loops_annotated body -> loops_annotated (Acquire sem cnt body)
| annotated_provide name values args :
    loops_annotated (Provide name values args)
| annotated_evaluate v : loops_annotated (Evaluate v).

(** The globals only grow: an installed logger keeps the records it had
    and may have received more, an absent logger stays absent, and the
    fresh-name counter does not go back. *)
Definition globals_extend (g g' : Globals) : Prop :=
  (exists extra,
     logger g' = (fun records => records ++ extra)%list <$> logger g)
  /\ (name_counter g <= name_counter g')%nat.





(** * Properties *)

(** ** Scoped expansion and re-binding *)

(** C9.  On [let x = 1 in x], expanded where an enclosing binding gives x
    the value 5, [expand_expr] puts the enclosing value into the body of
    the inner binding: the result is [let x = 1 in 5], which evaluates to
    5 where the input evaluates to 1.  The dependence check on the same
    input does stop at the re-binding. *)
Theorem expand_expr_enters_rebinding :
  expand_expr shadow_expr shadow_scope = Let "x" (IntImm 1) (IntImm 5)
  /\ eval ∅ shadow_expr = Some 1
  /\ eval ∅ (expand_expr shadow_expr shadow_scope) = Some 5
  /\ expr_depends_on_var shadow_expr "x" = false.
Proof. repeat split; vm_compute; reflexivity. Qed.

(** ** The per-loop slider: small facts used below *)

Section SliderFacts.

Context {an : Analyses}.
Variable func : Function.
Variable loop_var : string.
Variable loop_min : Expr.

Lemma visit_producer_selected scope name body st c min_req max_req :
  select_dim func loop_var scope = Some c ->
  min_required c = Some min_req ->
  max_required c = Some max_req ->
  updates_pure (func_updates func) (dim c) (dim_idx c) = Some true ->
  visit_producer func loop_var loop_min scope name body st
  = slide func loop_var loop_min (dim c) (dim_idx c) min_req max_req body
          (ProducerConsumer name true body) st.
Proof.
  intros Hsel Hmin Hmax Hpure. unfold visit_producer.
  rewrite Hsel, Hmin, Hmax, Hpure. reflexivity.
Qed.

Lemma slide_not_monotonic d idx min_req max_req body stmt st :
  can_slide_up loop_var min_req = false ->
  can_slide_down loop_var max_req = false ->
  slide func loop_var loop_min d idx min_req max_req body stmt st
  = Done stmt (logged loop_var st min_req max_req).
Proof. intros Hup Hdown. unfold slide. rewrite Hup, Hdown. reflexivity. Qed.

Lemma slide_no_overlap d idx min_req max_req body stmt st :
  no_overlap loop_var min_req max_req = true ->
  slide func loop_var loop_min d idx min_req max_req body stmt st
  = Done stmt (logged loop_var st min_req max_req).
Proof.
  intros Hno. unfold slide. rewrite Hno.
  destruct (negb _ && negb _); reflexivity.
Qed.

Lemma slide_rewrites d idx min_req max_req body stmt st :
  can_slide_up loop_var min_req || can_slide_down loop_var max_req = true ->
  no_overlap loop_var min_req max_req = false ->
  slide func loop_var loop_min d idx min_req max_req body stmt st
  = rewrite_bounds func loop_var loop_min d idx min_req max_req body stmt
      (logged loop_var st min_req max_req).
Proof.
  intros Hdir Hno. unfold slide. rewrite Hno.
  destruct (can_slide_up loop_var min_req),
           (can_slide_down loop_var max_req); simpl in *;
    first [ reflexivity | discriminate ].
Qed.

Lemma rewrite_bounds_globals d idx min_req max_req body stmt st s' st' :
  rewrite_bounds func loop_var loop_min d idx min_req max_req body stmt st
  = Done s' st' ->
  logger (globals st') = logger (globals st).
Proof.
  unfold rewrite_bounds. intros Hrun.
  repeat (match type of Hrun with
          | context [match ?x with _ => _ end] => destruct x
          end; try discriminate);
    inversion Hrun; reflexivity.
Qed.

Lemma slide_logger d idx min_req max_req body stmt st s' st' :
  slide func loop_var loop_min d idx min_req max_req body stmt st
  = Done s' st' ->
  logger (globals st') = logger (globals (logged loop_var st min_req max_req)).
Proof.
  unfold slide. intros Hrun.
  destruct (negb _ && negb _); [ inversion Hrun; reflexivity | ].
  destruct (no_overlap _ _ _); [ inversion Hrun; reflexivity | ].
  apply rewrite_bounds_globals in Hrun. exact Hrun.
Qed.

End SliderFacts.

(** ** Direction decision (lines 220-252) *)

Lemma log_if_unknown_logger `{Analyses} loop_var e g :
  logger (log_if_unknown loop_var e g)
  = (fun records => records ++ unknown_record loop_var e)%list <$> logger g.
Proof.
  unfold log_if_unknown, unknown_record, record_non_monotonic_loop_var.
  destruct g as [[records|] n], (is_monotonic e loop_var); simpl;
    rewrite ?app_nil_r; reflexivity.
Qed.

Lemma logged_logger `{Analyses} loop_var st min_req max_req :
  logger (globals (logged loop_var st min_req max_req))
  = (fun records =>
       records ++ unknown_record loop_var min_req
               ++ unknown_record loop_var max_req)%list
    <$> logger (globals st).
Proof.
  unfold logged, with_globals. simpl.
  rewrite !log_if_unknown_logger.
  destruct (logger (globals st)); simpl; [ | reflexivity ].
  rewrite <- app_assoc. reflexivity.
Qed.

(** The stencil with an oracle that cannot classify, and a logger
    installed: both records arrive, in order, and the producer is
    returned as it is. *)
Example unclassified_bounds_are_logged :
  visit_producer (an := Reference.blind_analyses) Samples.f "y"
    (Var "y.loop_min") Samples.stencil_scope "f"
    (Provide "f" [IntImm 0] [Var "x"]) (fresh_slider Samples.g0)
  = Done Samples.produce_f
      (with_globals (fresh_slider Samples.g0)
         {| logger := Some [("y", Var "y");
                            ("y", Add (Var "y") (IntImm 2))];
            name_counter := 0 |}).
Proof. vm_compute. reflexivity. Qed.

(** The report is best effort: with [get_compiler_logger()] null there is
    nowhere to record, and the same visit returns the producer with the
    state as it was. *)
Example unknown_without_logger_is_silent :
  is_monotonic (Analyses := Reference.blind_analyses) (Var "y") "y" = Unknown
  /\ visit_producer (an := Reference.blind_analyses) Samples.f "y"
       (Var "y.loop_min") Samples.stencil_scope "f"
       (Provide "f" [IntImm 0] [Var "x"]) (fresh_slider Samples.no_logger)
     = Done Samples.produce_f (fresh_slider Samples.no_logger)
  /\ logger (globals (fresh_slider Samples.no_logger)) = None.
Proof. repeat split; vm_compute; reflexivity. Qed.

(** ** Overlap guard (lines 260-275) *)

(** C4.  With [prev_max_plus_one] = ([max_required] with the loop variable
    replaced by loop variable - 1) + 1 and [prev_min_minus_one] =
    ([min_required] with the same replacement) - 1: if the prover shows
    [min_required >= prev_max_plus_one] or
    [max_required <= prev_min_minus_one], the visit returns the producer
    node itself, with the replacement map and the new loop minimum
    untouched. *)
Theorem no_overlap_leaves_producer `{Analyses}
    (func : Function) (loop_var : string) (loop_min : Expr)
    (scope : Scope) (name : string) (body : Stmt) (st : SliderState)
    (c : DimChoice) (min_req max_req : Expr) (pure : bool) :
  select_dim func loop_var scope = Some c ->
  min_required c = Some min_req ->
  max_required c = Some max_req ->
  updates_pure (func_updates func) (dim c) (dim_idx c) = Some pure ->
  can_prove
    (GE min_req
        (Add (substitute loop_var (Sub (Var loop_var) (IntImm 1)) max_req)
             (IntImm 1))) = true
  \/ can_prove
       (LE max_req
           (Sub (substitute loop_var (Sub (Var loop_var) (IntImm 1)) min_req)
                (IntImm 1))) = true ->
  prev_max_plus_one loop_var max_req
  = Add (substitute loop_var (Sub (Var loop_var) (IntImm 1)) max_req)
        (IntImm 1)
  /\ prev_min_minus_one loop_var min_req
     = Sub (substitute loop_var (Sub (Var loop_var) (IntImm 1)) min_req)
           (IntImm 1)
  /\ visit_producer func loop_var loop_min scope name body st
     = Done (ProducerConsumer name true body)
            (if pure then logged loop_var st min_req max_req else st).
Proof.
  intros Hsel Hmin Hmax Hpure Hprove.
  split; [ reflexivity | split; [ reflexivity | ] ].
  destruct pure.
  - rewrite (visit_producer_selected func loop_var loop_min scope name body
               st c min_req max_req Hsel Hmin Hmax Hpure).
    apply slide_no_overlap. unfold no_overlap, prev_max_plus_one,
      prev_min_minus_one, loop_var_expr.
    destruct Hprove as [Hp | Hp]; rewrite Hp;
      [ reflexivity | apply orb_true_r ].
  - unfold visit_producer. rewrite Hsel, Hmin, Hmax, Hpure. reflexivity.
Qed.

(** ** One exact solve per slider (lines 290-299) *)

Lemma log_if_unknown_counter `{Analyses} loop_var e g :
  name_counter (log_if_unknown loop_var e g) = name_counter g.
Proof.
  unfold log_if_unknown, record_non_monotonic_loop_var.
  destruct g as [[records|] n], (is_monotonic e loop_var); reflexivity.
Qed.

Lemma logged_counter `{Analyses} loop_var st min_req max_req :
  name_counter (globals (logged loop_var st min_req max_req))
  = name_counter (globals st).
Proof.
  unfold logged, with_globals. simpl.
  rewrite !log_if_unknown_counter. reflexivity.
Qed.

(** C10.  At a producer of the stage that has passed dimension selection,
    the purity guard, the direction decision and the overlap guard: if the
    solve yields a single point while a new loop minimum is already
    recorded, the visit stops on the internal assertion; no state, and so
    no overwritten minimum, comes out of it. *)
Theorem second_exact_solve_asserts `{Analyses}
    (func : Function) (loop_var : string) (loop_min : Expr)
    (scope : Scope) (name : string) (body : Stmt) (st : SliderState)
    (c : DimChoice) (min_req max_req earlier : Expr) :
  select_dim func loop_var scope = Some c ->
  min_required c = Some min_req ->
  max_required c = Some max_req ->
  updates_pure (func_updates func) (dim c) (dim_idx c) = Some true ->
  can_slide_up loop_var min_req || can_slide_down loop_var max_req = true ->
  no_overlap loop_var min_req max_req = false ->
  single_point
    (solve_new_loop_min loop_var loop_min (can_slide_up loop_var min_req)
       (unique_name (name_counter (globals st))) min_req max_req) = true ->
  new_loop_min st = Some earlier ->
  visit_producer func loop_var loop_min scope name body st
  = Failed InternalAssert.
Proof.
  intros Hsel Hmin Hmax Hpure Hdir Hno Hpoint Hearlier.
  rewrite (visit_producer_selected func loop_var loop_min scope name body st
             c min_req max_req Hsel Hmin Hmax Hpure).
  rewrite slide_rewrites by assumption.
  unfold rewrite_bounds. rewrite logged_counter, Hpoint.
  unfold logged, with_globals. simpl. rewrite Hearlier. reflexivity.
Qed.

Lemma second_exact_solve_asserts_witness :
  visit_producer (an := Reference.analyses) Samples.f "y"
    (Var "y.loop_min") Samples.stencil_scope "f"
    (Provide "f" [IntImm 0] [Var "x"])
    {| replacements := ∅;
       new_loop_min := Some (Sub (Var "y.loop_min") (IntImm 2));
       globals := Samples.g0 |}
  = Failed InternalAssert.
Proof.
  apply (second_exact_solve_asserts (H := Reference.analyses)
           Samples.f "y" (Var "y.loop_min") Samples.stencil_scope "f"
           (Provide "f" [IntImm 0] [Var "x"]) _
           Samples.stencil_choice (Var "y") (Add (Var "y") (IntImm 2))
           (Sub (Var "y.loop_min") (IntImm 2)));
    vm_compute; reflexivity.
Defined.

(** Two producers of the stage in one loop body: the first adopts the
    exact solution, the second trips the assertion. *)
Example two_producers_assert :
  mutate (an := Reference.analyses) Samples.f "y" (Var "y.loop_min")
    Samples.stencil_scope (Block Samples.produce_f Samples.produce_f)
    (fresh_slider Samples.g0)
  = Failed InternalAssert.
Proof. vm_compute. reflexivity. Qed.

(** ** Warmup guard (lines 362-376) *)



Lemma no_overlap_leaves_producer_witness :
  visit_producer (an := Reference.analyses) Samples.f "y"
    (Var "y.loop_min") Samples.single_row_scope "f"
    (Provide "f" [IntImm 0] [Var "x"]) (fresh_slider Samples.g0)
  = Done Samples.produce_f (fresh_slider Samples.g0).
Proof.
  destruct (no_overlap_leaves_producer (H := Reference.analyses)
              Samples.f "y" (Var "y.loop_min") Samples.single_row_scope "f"
              (Provide "f" [IntImm 0] [Var "x"]) (fresh_slider Samples.g0)
              Samples.single_row_choice
              (Add (Var "y") (IntImm 5)) (Add (Var "y") (IntImm 5)) true)
    as (_ & _ & Hkeep);
    [ vm_compute; reflexivity | reflexivity | reflexivity | reflexivity
    | left; vm_compute; reflexivity | ].
  rewrite Hkeep. vm_compute. reflexivity.
Defined.

(** A consumer of another stage met before the producer has recorded a
    minimum is upstream of the slide and stays as it is; the consumer met
    afterwards is guarded. *)
Example consumer_before_producer :
  mutate (an := Reference.analyses) Samples.f "y" (Var "y.loop_min")
    Samples.stencil_scope
    (Block (ProducerConsumer "k" false (Evaluate (IntImm 0)))
           (Block Samples.produce_f Samples.consume_f))
    (fresh_slider Samples.g0)
  = Done
      (Block (ProducerConsumer "k" false (Evaluate (IntImm 0)))
         (Block Samples.produce_f
            (ProducerConsumer "f" false
               (IfThenElse
                  (Call "likely_if_innermost"
                     [GE (Var "y") (Var "y.loop_min.orig")])
                  (Provide "g" [Var "f"] [Var "y"]) None))))
      {| replacements :=
           {[ "f.s0.x.min" :=
                Add (Add (Sub (Var "y") (IntImm 1)) (IntImm 2))
                    (IntImm 1) ]};
         new_loop_min := Some (Sub (Var "y.loop_min") (IntImm 2));
         globals := {| logger := Some []; name_counter := 1 |} |}.
Proof. vm_compute. reflexivity. Qed.


(** ** Strings *)

Lemma append_cons (ch : Ascii.ascii) (a b : string) :
  String ch a +:+ b = String ch (a +:+ b).
Proof. reflexivity. Qed.

Lemma append_assoc (a b c : string) : (a +:+ b) +:+ c = a +:+ (b +:+ c).
Proof.
  induction a as [|ch a IH]; [ reflexivity | ].
  rewrite !append_cons, IH. reflexivity.
Qed.

Lemma append_length (a b : string) :
  String.length (a +:+ b) = (String.length a + String.length b)%nat.
Proof.
  induction a as [|ch a IH]; [ reflexivity | ].
  rewrite append_cons. simpl. rewrite IH. reflexivity.
Qed.

Lemma append_inj_length (a b c d : string) :
  String.length a = String.length b ->
  a +:+ c = b +:+ d -> a = b /\ c = d.
Proof.
  revert b. induction a as [|ch a IH]; intros [|ch' b] Hlen Heq;
    try discriminate Hlen.
  - split; [ reflexivity | exact Heq ].
  - rewrite !append_cons in Heq.
    injection Heq as Hch Htl. injection Hlen as Hlen.
    destruct (IH b Hlen Htl) as [-> ->]. subst. split; reflexivity.
Qed.

Lemma append_inv_tail (a b c : string) : a +:+ c = b +:+ c -> a = b.
Proof.
  intros Heq. apply (append_inj_length a b c c); [ | exact Heq ].
  apply (f_equal String.length) in Heq. rewrite !append_length in Heq. lia.
Qed.

Lemma append_suffix_differs (a b c d : string) :
  String.length c = String.length d -> c <> d -> a +:+ c <> b +:+ d.
Proof.
  intros Hlen Hne Heq. apply Hne.
  apply (append_inj_length a b c d); [ | exact Heq ].
  apply (f_equal String.length) in Heq. rewrite !append_length in Heq. lia.
Qed.

Lemma substring_append_prefix (a b : string) :
  String.substring 0 (String.length a) (a +:+ b) = a.
Proof.
  induction a as [|ch a IH].
  - destruct b; reflexivity.
  - rewrite append_cons. simpl. rewrite IH. reflexivity.
Qed.

(** Line 461 on a loop minimum named by the convention
    [<loop>.loop_min]: the name of the loop maximum. *)
Lemma loop_max_name_of_loop_min (name : string) :
  loop_max_name_of (name +:+ ".loop_min") = name +:+ ".loop_max".
Proof.
  unfold loop_max_name_of.
  replace (name +:+ ".loop_min") with ((name +:+ ".loop_m") +:+ "in")
    by (rewrite append_assoc; reflexivity).
  rewrite append_length.
  change (String.length "in") with 2%nat.
  destruct (Nat.ltb_spec (String.length (name +:+ ".loop_m") + 2) 2) as [Hlt|_].
  - rewrite append_length in Hlt. simpl in Hlt. lia.
  - rewrite Nat.add_sub, substring_append_prefix, append_assoc. reflexivity.
Qed.

Lemma renamed_loop_differs (name : string) : name +:+ ".n" <> name.
Proof.
  intros Heq. apply (f_equal String.length) in Heq.
  rewrite append_length in Heq. simpl in Heq. lia.
Qed.

(** ** Int(32) arithmetic *)

Lemma wrap32_id (z : Z) : in_int32 z -> wrap32 z = z.
Proof.
  unfold in_int32, wrap32. intros Hz.
  rewrite Z.mod_small by lia. lia.
Qed.

Lemma wrap32_add_l (a b : Z) : wrap32 (wrap32 a + b) = wrap32 (a + b).
Proof.
  unfold wrap32.
  replace ((a + 2 ^ 31) mod 2 ^ 32 - 2 ^ 31 + b + 2 ^ 31)
    with ((a + 2 ^ 31) mod 2 ^ 32 + b) by lia.
  rewrite Zplus_mod_idemp_l. f_equal. f_equal. lia.
Qed.

Lemma wrap32_add_r (a b : Z) : wrap32 (a + wrap32 b) = wrap32 (a + b).
Proof. rewrite (Z.add_comm a), wrap32_add_l, (Z.add_comm b). reflexivity. Qed.

Lemma wrap32_sub_l (a b : Z) : wrap32 (wrap32 a - b) = wrap32 (a - b).
Proof. unfold Z.sub. apply wrap32_add_l. Qed.

(** [new_min + (max - new_min + 1) - 1] in Int(32) arithmetic. *)
Lemma extent_arithmetic (vmin vmax : Z) :
  in_int32 vmax ->
  wrap32 (wrap32 (vmin + wrap32 (wrap32 (vmax - vmin) + 1)) - 1) = vmax.
Proof.
  intros Hmax.
  rewrite wrap32_sub_l.
  replace (vmin + wrap32 (wrap32 (vmax - vmin) + 1) - 1)
    with (vmin - 1 + wrap32 (wrap32 (vmax - vmin) + 1)) by lia.
  rewrite wrap32_add_r.
  replace (vmin - 1 + (wrap32 (vmax - vmin) + 1))
    with (wrap32 (vmax - vmin) + vmin) by lia.
  rewrite wrap32_add_l.
  replace (vmax - vmin + vmin) with vmax by lia.
  apply wrap32_id. exact Hmax.
Qed.

Ltac string_ne :=
  let Heq := fresh "Heq" in
  intros Heq; rewrite ?append_assoc in Heq;
  apply (inj (String.append _)) in Heq; discriminate Heq.

(** ** The per-stage driver (lines 433-507) *)

(** C8.  The driver runs the per-loop slider at a loop exactly when the
    loop is serial or unrolled.  At a loop of any other type nothing is
    attempted (the body, the name and the globals pass through the slide
    step as they are) and the loop comes back with its name, minimum,
    extent and type, around the driver's result on its body.  At a serial
    or unrolled loop the slider runs on the whole body, whatever loops the
    body contains. *)
Theorem slider_runs_at_serial_or_unrolled_only `{Analyses}
    (func : Function) (fuel : nat) (name : string) (min extent : Expr)
    (for_type : ForType) (device_api : DeviceAPI) (body : Stmt)
    (g : Globals) :
  (serial_or_unrolled for_type = true
   <-> for_type = Serial \/ for_type = Unrolled)
  /\ (serial_or_unrolled for_type = false ->
      slide_over_loop func name min for_type body g
      = Done {| ls_body := body; ls_name := name; ls_min_extent := None |} g
      /\ driver_mutate func (S fuel)
           (For name min extent for_type device_api body) g
         = match driver_mutate func fuel body g with
           | Done body' g' =>
               Done (For name min extent for_type device_api body') g'
           | Failed f => Failed f
           end)
  /\ (serial_or_unrolled for_type = true ->
      forall f, mutate func name min ∅ body (fresh_slider g) = Failed f ->
                driver_mutate func (S fuel)
                  (For name min extent for_type device_api body) g
                = Failed f)
  /\ (serial_or_unrolled for_type = true ->
      forall new_body st,
        mutate func name min ∅ body (fresh_slider g) = Done new_body st ->
        new_loop_min st = None ->
        driver_mutate func (S fuel)
          (For name min extent for_type device_api body) g
        = match driver_mutate func fuel new_body (globals st) with
          | Done body' g' =>
              Done (For name min extent for_type device_api body') g'
          | Failed f => Failed f
          end).
Proof.
  split; [ | split; [ | split ] ].
  - destruct for_type; simpl; split; intros Hd;
      try discriminate; try reflexivity; auto;
      destruct Hd; discriminate.
  - intros Hother.
    assert (Hslide :
      slide_over_loop func name min for_type body g
      = Done {| ls_body := body; ls_name := name; ls_min_extent := None |} g).
    { unfold slide_over_loop. rewrite Hother. reflexivity. }
    split; [ exact Hslide | ].
    cbn [driver_mutate]. unfold visit_For, bind at 1. rewrite Hslide.
    cbn [ls_name ls_body ls_min_extent].
    rewrite bool_decide_eq_true_2 by reflexivity. cbn [negb].
    unfold bind, ret.
    destruct (driver_mutate func fuel body g); reflexivity.
  - intros Hserial f Hfail.
    cbn [driver_mutate]. unfold visit_For, bind at 1, slide_over_loop.
    rewrite Hserial, Hfail. reflexivity.
  - intros Hserial new_body st Hrun Hnone.
    cbn [driver_mutate]. unfold visit_For, bind at 1, slide_over_loop.
    rewrite Hserial, Hrun, Hnone.
    cbn [ls_name ls_body ls_min_extent].
    rewrite bool_decide_eq_true_2 by reflexivity. cbn [negb].
    unfold bind, ret.
    destruct (driver_mutate func fuel new_body (globals st)); reflexivity.
Qed.

(** The stencil under a vectorized loop is left alone. *)
Lemma slider_runs_at_serial_or_unrolled_only_witness :
  driver_mutate (an := Reference.analyses) Samples.f 6
    (Samples.stencil_loop Vectorized) Samples.g0
  = Done (Samples.stencil_loop Vectorized) Samples.g0.
Proof.
  destruct (slider_runs_at_serial_or_unrolled_only
              (H := Reference.analyses) Samples.f 5 "y" (Var "y.loop_min")
              (Var "y.loop_extent") Vectorized DeviceNone
              Samples.stencil_body Samples.g0)
    as (_ & Hother & _).
  destruct (Hother eq_refl) as [_ Hloop].
  unfold Samples.stencil_loop. rewrite Hloop. vm_compute. reflexivity.
Defined.

(** A serial loop around a vectorized loop: the slide happens at the
    serial loop (renamed, new minimum two iterations earlier, bound of the
    stage narrowed, consumer guarded); the vectorized loop keeps its name,
    minimum and extent. *)
Example serial_around_vectorized :
  driver_mutate (an := Reference.analyses) Samples.f 8
    Samples.nested_loops Samples.g0
  = Done
      (LetStmt "y.n.loop_min" (Sub (Var "y.loop_min") (IntImm 2))
         (LetStmt "y.n.loop_min.orig" (Var "y.n.loop_min")
            (LetStmt "y.n.loop_extent"
               (Add (Sub (Var "y.loop_max") (Var "y.n.loop_min")) (IntImm 1))
               (LetStmt "y.n.loop_max"
                  (Sub (Add (Var "y.n.loop_min") (Var "y.n.loop_extent"))
                       (IntImm 1))
                  (For "y.n" (Var "y.n.loop_min") (Var "y.n.loop_extent")
                     Serial DeviceNone
                     (LetStmt "f.s0.x.max" (Add (Var "y.n") (IntImm 2))
                        (LetStmt "f.s0.x.min"
                           (Add (Add (Sub (Var "y.n") (IntImm 1)) (IntImm 2))
                                (IntImm 1))
                           (For "xi" (IntImm 0) (IntImm 8) Vectorized
                              DeviceNone
                              (Block Samples.produce_f
                                 (ProducerConsumer "f" false
                                    (IfThenElse
                                       (Call "likely_if_innermost"
                                          [GE (Var "y.n")
                                              (Var "y.loop_min.orig")])
                                       (Provide "g" [Var "f"] [Var "y.n"])
                                       None)))))))))))
      {| logger := Some []; name_counter := 1 |}.
Proof. vm_compute. reflexivity. Qed.

(** C6.  At a serial or unrolled loop whose minimum is the variable
    [<loop>.loop_min] and at which the slider has recorded a new loop
    minimum: the loop is renamed [<loop>.n]; its body is the slider's
    result with the old loop name and its [.loop_extent] and [.loop_min]
    names replaced by the new ones, then mutated by the driver; its
    minimum and extent are the variables [<loop>.n.loop_min] and
    [<loop>.n.loop_extent]; and it is wrapped, outermost first, in
    bindings of [<loop>.n.loop_min] (the new minimum),
    [<loop>.n.loop_min.orig], [<loop>.n.loop_extent]
    (= [<loop>.loop_max - <loop>.n.loop_min + 1]) and [<loop>.n.loop_max]
    (= [<loop>.n.loop_min + <loop>.n.loop_extent - 1]).  Under these
    bindings, new minimum + new extent - 1 evaluates to the value of
    [<loop>.loop_max], the upper bound of the original loop. *)
Theorem slid_loop_keeps_upper_bound `{Analyses}
    (func : Function) (fuel : nat) (name : string) (extent : Expr)
    (for_type : ForType) (device_api : DeviceAPI) (body : Stmt)
    (g : Globals) (new_body : Stmt) (st : SliderState)
    (slider_min : Expr) (body' : Stmt) (g' : Globals) :
  serial_or_unrolled for_type = true ->
  mutate func name (Var (name +:+ ".loop_min")) ∅ body (fresh_slider g)
  = Done new_body st ->
  new_loop_min st = Some slider_min ->
  let n := name +:+ ".n" in
  let new_min := Var (n +:+ ".loop_min") in
  let new_extent := Var (n +:+ ".loop_extent") in
  let renamed :=
    substitute_map
      (<[name +:+ ".loop_min" := new_min]>
         (<[name +:+ ".loop_extent" := new_extent]>
            (<[name := Var n]> ∅))) new_body in
  driver_mutate func fuel renamed (globals st) = Done body' g' ->
  let new_loop_extent :=
    Add (Sub (Var (name +:+ ".loop_max")) new_min) (IntImm 1) in
  let new_loop_max := Sub (Add new_min new_extent) (IntImm 1) in
  let new_for := For n new_min new_extent for_type device_api body' in
  let result :=
    LetStmt (n +:+ ".loop_min") slider_min
      (LetStmt (n +:+ ".loop_min.orig") new_min
         (LetStmt (n +:+ ".loop_extent") new_loop_extent
            (LetStmt (n +:+ ".loop_max") new_loop_max new_for))) in
  driver_mutate func (S fuel)
    (For name (Var (name +:+ ".loop_min")) extent for_type device_api body) g
  = Done result g'
  /\ forall (env : gmap string Z) (vmin vmax : Z),
       eval env slider_min = Some vmin ->
       env !! (name +:+ ".loop_max") = Some vmax ->
       in_int32 vmax ->
       exists env',
         enter_lets 3 env result
         = Some (env', LetStmt (n +:+ ".loop_max") new_loop_max new_for)
         /\ eval env' new_min = Some vmin
         /\ eval env' new_loop_max = Some vmax.
Proof.
  intros Hserial Hrun Hmin n new_min new_extent renamed Hrec
         new_loop_extent new_loop_max new_for result.
  split.
  - cbn [driver_mutate]. unfold visit_For, bind at 1, slide_over_loop.
    rewrite Hserial, Hrun, Hmin. cbn [ls_name ls_body ls_min_extent].
    rewrite bool_decide_eq_false_2 by apply renamed_loop_differs.
    cbn [negb]. unfold bind at 1. fold n. unfold renames.
    fold new_min new_extent renamed. rewrite Hrec.
    rewrite loop_max_name_of_loop_min. reflexivity.
  - intros env vmin vmax Hvmin Hvmax Hrange.
    assert (Hk12 : n +:+ ".loop_min" <> n +:+ ".loop_min.orig") by string_ne.
    assert (Hk13 : n +:+ ".loop_min" <> n +:+ ".loop_extent") by string_ne.
    assert (Hk23 : n +:+ ".loop_min.orig" <> n +:+ ".loop_extent")
      by string_ne.
    assert (Hm1 : name +:+ ".loop_max" <> n +:+ ".loop_min")
      by (unfold n; string_ne).
    assert (Hm2 : name +:+ ".loop_max" <> n +:+ ".loop_min.orig")
      by (unfold n; string_ne).
    eexists. unfold result. cbn [enter_lets]. rewrite Hvmin.
    unfold new_min at 1. cbn [eval]. rewrite lookup_insert_eq.
    unfold new_loop_extent, new_min. cbn [eval].
    rewrite (lookup_insert_ne _ (n +:+ ".loop_min.orig")) by auto.
    rewrite (lookup_insert_ne _ (n +:+ ".loop_min")) by auto.
    rewrite Hvmax.
    rewrite (lookup_insert_ne _ (n +:+ ".loop_min.orig")) by auto.
    rewrite lookup_insert_eq. cbn [eval_bin].
    split; [ reflexivity | ]. split.
    + rewrite (lookup_insert_ne _ (n +:+ ".loop_extent")) by auto.
      rewrite (lookup_insert_ne _ (n +:+ ".loop_min.orig")) by auto.
      rewrite lookup_insert_eq. reflexivity.
    + unfold new_loop_max, new_min, new_extent. cbn [eval].
      rewrite lookup_insert_eq.
      rewrite (lookup_insert_ne _ (n +:+ ".loop_extent")) by auto.
      rewrite (lookup_insert_ne _ (n +:+ ".loop_min.orig")) by auto.
      rewrite lookup_insert_eq. cbn [eval_bin].
      rewrite extent_arithmetic by exact Hrange. reflexivity.
Qed.

(** ** Dimension selection (lines 152-201) *)

Section DimensionSelection.

Context {an : Analyses}.
Variable func : Function.
Variable loop_var : string.
Variable scope : Scope.

Local Abbreviation depends := (dim_depends func loop_var scope).
Local Abbreviation dependents := (dependent_dims func loop_var scope).
Local Abbreviation available :=
  (Forall (fun a => is_Some (region_required func scope a))).

Lemma dependent_dims_cons arg rest :
  dependents (arg :: rest)
  = if depends arg then arg :: dependents rest else dependents rest.
Proof. reflexivity. Qed.







End DimensionSelection.

(** *** The rule in terms of the scope

    Lines 164-169 form the two bound names of a dimension from the
    stage's name, the index of its last definition and the dimension's
    name, look them up in the scope and expand what they find. *)










(** ** Purity guard (lines 125-140 and 204-218) *)

Lemma FuncDef_nested_ind (P : FuncDef -> Prop) :
  (forall args specs,
     Forall (fun s => P (spec_definition s)) specs -> P (MkDef args specs)) ->
  forall d, P d.
Proof.
  intros Hstep. fix IH 1. intros [args specs]. apply Hstep.
  induction specs as [|[cond d] specs IHspecs]; constructor.
  - apply IH.
  - exact IHspecs.
Qed.

Lemma is_var_named_spec e dim : is_var_named e dim = true <-> e = Var dim.
Proof.
  destruct e; simpl; try (split; [ discriminate | intros Hd; discriminate Hd ]).
  rewrite bool_decide_eq_true. split; [ intros ->; reflexivity | ].
  intros Hd. injection Hd as ->. reflexivity.
Qed.

Lemma specializations_pure_true pure_in specs :
  specializations_pure pure_in specs = Some true
  <-> Forall (fun s => pure_in (spec_definition s) = Some true) specs.
Proof.
  induction specs as [|[cond d] specs IH]; simpl.
  - split; [ constructor | reflexivity ].
  - destruct (pure_in d) as [[|]|] eqn:Hd.
    + rewrite IH. split.
      * intros Hrest. constructor; assumption.
      * intros Hall. inversion Hall; assumption.
    + split; [ discriminate | ]. intros Hall.
      inversion Hall as [|? ? Hp _]. simpl in Hp. congruence.
    + split; [ discriminate | ]. intros Hall.
      inversion Hall as [|? ? Hp _]. simpl in Hp. congruence.
Qed.

Lemma specializations_pure_defined pure_in specs :
  Forall (fun s => exists b, pure_in (spec_definition s) = Some b) specs ->
  exists b, specializations_pure pure_in specs = Some b.
Proof.
  induction specs as [|[cond d] specs IH]; intros Hall; simpl; [ eauto | ].
  inversion Hall as [|? ? [b Hb] Hrest]; subst. simpl in Hb. rewrite Hb.
  destruct b; [ apply IH; assumption | eauto ].
Qed.

Lemma is_dim_always_pure_true dim dim_idx def :
  is_dim_always_pure def dim dim_idx = Some true
  <-> always_pure dim dim_idx def.
Proof.
  induction def as [args specs IH] using FuncDef_nested_ind.
  cbn [is_dim_always_pure]. split.
  - intros Hrun. destruct (args !! dim_idx) as [a|] eqn:Ha;
      [ | discriminate ].
    destruct (is_var_named a dim) eqn:Hvar; [ | discriminate ].
    apply is_var_named_spec in Hvar. subst a. cbn [negb] in Hrun.
    constructor; [ exact Ha | ].
    apply specializations_pure_true in Hrun.
    rewrite Forall_forall in IH, Hrun |- *.
    intros s Hs. apply IH; [ exact Hs | ]. apply Hrun. exact Hs.
  - intros Hpure. inversion Hpure as [? ? Ha Hspecs]; subst.
    rewrite Ha. simpl is_var_named.
    rewrite bool_decide_eq_true_2 by reflexivity. cbn [negb].
    apply specializations_pure_true.
    rewrite Forall_forall in IH, Hspecs |- *.
    intros s Hs. apply IH; [ exact Hs | ]. apply Hspecs. exact Hs.
Qed.

Lemma is_dim_always_pure_defined dim dim_idx def :
  indexable dim_idx def ->
  exists b, is_dim_always_pure def dim dim_idx = Some b.
Proof.
  induction def as [args specs IH] using FuncDef_nested_ind.
  intros Hidx. inversion Hidx as [? ? [a Ha] Hspecs]; subst.
  cbn [is_dim_always_pure]. rewrite Ha.
  destruct (negb (is_var_named a dim)); [ eauto | ].
  apply specializations_pure_defined.
  rewrite Forall_forall in IH, Hspecs |- *.
  intros s Hs. apply IH; [ exact Hs | ]. apply Hspecs. exact Hs.
Qed.

Lemma updates_pure_true dim dim_idx updates :
  updates_pure updates dim dim_idx = Some true
  <-> Forall (always_pure dim dim_idx) updates.
Proof.
  induction updates as [|def updates IH]; simpl.
  - split; [ constructor | reflexivity ].
  - destruct (is_dim_always_pure def dim dim_idx) as [[|]|] eqn:Hdef.
    + rewrite IH. apply is_dim_always_pure_true in Hdef. split.
      * intros Hrest. constructor; assumption.
      * intros Hall. inversion Hall; assumption.
    + split; [ discriminate | ]. intros Hall. inversion Hall as [|? ? Hp _].
      apply is_dim_always_pure_true in Hp. congruence.
    + split; [ discriminate | ]. intros Hall. inversion Hall as [|? ? Hp _].
      apply is_dim_always_pure_true in Hp. congruence.
Qed.

Lemma updates_pure_defined dim dim_idx updates :
  Forall (indexable dim_idx) updates ->
  exists b, updates_pure updates dim dim_idx = Some b.
Proof.
  induction updates as [|def updates IH]; intros Hidx; simpl; [ eauto | ].
  inversion Hidx as [|? ? Hd Hrest]; subst.
  destruct (is_dim_always_pure_defined dim dim_idx def Hd) as [[|] Hb];
    rewrite Hb; [ apply IH; assumption | eauto ].
Qed.

Lemma choose_dim_with_primary `{Analyses} func primary loop_var scope rest :
  forall i c,
    choose_dim (with_primary func primary) loop_var scope i rest c
    = choose_dim func loop_var scope i rest c.
Proof.
  induction rest as [|arg rest IH]; intros i c; [ reflexivity | ].
  cbn [choose_dim].
  change (region_required (with_primary func primary) scope arg)
    with (region_required func scope arg).
  destruct (region_required func scope arg) as [r|]; [ | reflexivity ].
  rewrite !IH. reflexivity.
Qed.

(** The loop sets and clears [min_required] and [max_required] together. *)
Lemma choose_dim_both_bounds `{Analyses} func loop_var scope rest :
  forall i c0 c1,
    (is_Some (min_required c0) -> is_Some (max_required c0)) ->
    choose_dim func loop_var scope i rest c0 = Some c1 ->
    is_Some (min_required c1) -> is_Some (max_required c1).
Proof.
  induction rest as [|arg rest IH]; intros i c0 c1 Hc0 Hrun.
  - injection Hrun as <-. exact Hc0.
  - cbn [choose_dim] in Hrun.
    destruct (region_required func scope arg) as [r|]; [ | discriminate ].
    destruct (depends_on_loop_var loop_var r).
    + destruct (negb (string_empty (dim c0))).
      * injection Hrun as <-. simpl. intros [? Hx]. discriminate Hx.
      * eapply IH; [ | exact Hrun ]. simpl. eauto.
    + destruct (_ && _ && _ && _).
      * eapply IH; [ | exact Hrun ]. simpl. eauto.
      * eapply IH; [ | exact Hrun ]. exact Hc0.
Qed.

(** C3 (as amended).  For a stage and its selected sliding dimension:
    whenever the visit of a producer returns anything but the producer
    node and the state it was given, the dimension is a pass-through axis
    (the argument at its index is the variable of its name) in every
    update definition and in every specialization of those, at any depth;
    if that fails for one of them, the visit returns the producer node and
    the state as they are; and the primary definition plays no part: the
    visit gives the same result whatever the primary definition is. *)
Theorem purity_guard_covers_updates `{Analyses}
    (func : Function) (loop_var : string) (loop_min : Expr)
    (scope : Scope) (name : string) (body : Stmt) (st : SliderState)
    (c : DimChoice) (min_req : Expr) :
  select_dim func loop_var scope = Some c ->
  min_required c = Some min_req ->
  let stmt := ProducerConsumer name true body in
  let pure_in_updates :=
    Forall (always_pure (dim c) (dim_idx c)) (func_updates func) in
  (forall s' st',
     visit_producer func loop_var loop_min scope name body st = Done s' st' ->
     s' <> stmt \/ st' <> st ->
     pure_in_updates)
  /\ (Forall (indexable (dim_idx c)) (func_updates func) ->
      ~ pure_in_updates ->
      visit_producer func loop_var loop_min scope name body st = Done stmt st)
  /\ (forall primary,
        visit_producer (with_primary func primary) loop_var loop_min scope
          name body st
        = visit_producer func loop_var loop_min scope name body st).
Proof.
  intros Hsel Hmin stmt pure_in_updates. split; [ | split ].
  - intros s' st' Hrun Hchanged. unfold visit_producer in Hrun.
    rewrite Hsel, Hmin in Hrun.
    destruct (max_required c); [ | discriminate ].
    destruct (updates_pure (func_updates func) (dim c) (dim_idx c))
      as [[|]|] eqn:Hpure; [ | | discriminate ].
    + apply updates_pure_true. exact Hpure.
    + inversion Hrun; subst. destruct Hchanged; contradiction.
  - intros Hidx Himpure.
    destruct (updates_pure_defined (dim c) (dim_idx c) _ Hidx) as [b Hb].
    destruct b; [ apply updates_pure_true in Hb; contradiction | ].
    unfold visit_producer. rewrite Hsel, Hmin.
    destruct (max_required c) eqn:Hmax.
    + rewrite Hb. reflexivity.
    + exfalso.
      assert (Hboth : is_Some (max_required c)).
      { apply (choose_dim_both_bounds func loop_var scope (func_args func)
                 0%nat no_dim c); [ | exact Hsel | rewrite Hmin; eauto ].
        simpl. intros [? Hy]. discriminate Hy. }
      rewrite Hmax in Hboth. destruct Hboth as [? Hx]. discriminate Hx.
  - intros primary. unfold visit_producer, select_dim.
    change (func_args (with_primary func primary)) with (func_args func).
    change (func_updates (with_primary func primary))
      with (func_updates func).
    rewrite choose_dim_with_primary. reflexivity.
Qed.

(** On the stencil with a scatter update the producer comes back as it
    is. *)
Lemma purity_guard_covers_updates_witness :
  visit_producer (an := Reference.analyses) Samples.f_scatter "y"
    (Var "y.loop_min") Samples.update_scope "f"
    (Provide "f" [IntImm 0] [Var "x"]) (fresh_slider Samples.g0)
  = Done Samples.produce_f (fresh_slider Samples.g0).
Proof.
  destruct (purity_guard_covers_updates (H := Reference.analyses)
              Samples.f_scatter "y" (Var "y.loop_min") Samples.update_scope
              "f" (Provide "f" [IntImm 0] [Var "x"])
              (fresh_slider Samples.g0) Samples.stencil_choice (Var "y"))
    as (_ & Hkeep & _); [ vm_compute; reflexivity | reflexivity | ].
  apply Hkeep.
  - repeat constructor. simpl. eauto.
  - intros Hall. inversion Hall as [|? ? Hp _]. inversion Hp as [? ? Ha _].
    discriminate Ha.
Defined.

(** C3 (as stated) fails on the primary definition: a stage whose primary
    definition writes at [x*2] and that has no update passes the guard,
    and the visit records the narrowed bound and the new loop minimum. *)
Lemma primary_definition_is_not_checked :
  is_dim_always_pure (func_definition Samples.scatter_primary) "x" 0
  = Some false
  /\ visit_producer (an := Reference.analyses) Samples.scatter_primary "y"
       (Var "y.loop_min") Samples.stencil_scope "f"
       (Provide "f" [IntImm 0] [Var "x"]) (fresh_slider Samples.g0)
     = Done Samples.produce_f
         {| replacements :=
              {[ "f.s0.x.min" :=
                   Add (Add (Sub (Var "y") (IntImm 1)) (IntImm 2))
                       (IntImm 1) ]};
            new_loop_min := Some (Sub (Var "y.loop_min") (IntImm 2));
            globals := {| logger := Some []; name_counter := 1 |} |}.
Proof. split; vm_compute; reflexivity. Qed.

(** ** New loop start and rewritten bound (lines 277-341) *)

Lemma last_stage_key_fresh func d sfx sfx' i :
  String.length sfx = String.length sfx' ->
  i <> length (func_updates func) ->
  stage_prefix func +:+ d +:+ sfx
  <> (func_name func +:+ ".s" +:+ pretty i +:+ "." +:+ d) +:+ sfx'.
Proof.
  intros Hlen Hi Heq. unfold stage_prefix in Heq.
  rewrite <- !append_assoc in Heq.
  match type of Heq with
  | ?x +:+ _ = ?y +:+ _ =>
      assert (Hfront : x = y);
      [ apply (append_inj_length x y sfx sfx'); [ | exact Heq ];
        apply (f_equal String.length) in Heq;
        repeat rewrite append_length in Heq;
        repeat rewrite append_length; lia | ]
  end.
  apply append_inv_tail, append_inv_tail in Hfront.
  apply (inj (String.append _)) in Hfront.
  apply (inj pretty) in Hfront. apply Hi. symmetry. exact Hfront.
Qed.

Lemma alias_update_stages_lookup func d k : forall l r,
  (forall i sfx, In i l -> sfx = ".min" \/ sfx = ".max" ->
     k <> (func_name func +:+ ".s" +:+ pretty i +:+ "." +:+ d) +:+ sfx) ->
  foldl (alias_update_stage func d) r l !! k = r !! k.
Proof.
  induction l as [|i l IH]; intros r Hfresh; [ reflexivity | ].
  simpl. rewrite IH by (intros; apply Hfresh; [ right | ]; assumption).
  unfold alias_update_stage.
  rewrite !lookup_insert_ne; [ reflexivity | | ];
    apply not_eq_sym, Hfresh; simpl; auto.
Qed.

Lemma last_stage_key_kept func d sfx r :
  sfx = ".min" \/ sfx = ".max" ->
  alias_update_stages func d r !! (stage_prefix func +:+ d +:+ sfx)
  = r !! (stage_prefix func +:+ d +:+ sfx).
Proof.
  intros Hsfx. unfold alias_update_stages.
  apply alias_update_stages_lookup. intros i sfx' Hin Hsfx'.
  apply last_stage_key_fresh.
  - destruct Hsfx as [-> | ->], Hsfx' as [-> | ->]; reflexivity.
  - apply in_seq in Hin. lia.
Qed.

Lemma min_key_is_not_max_key func d :
  stage_prefix func +:+ d +:+ ".min" <> stage_prefix func +:+ d +:+ ".max".
Proof.
  intros Heq. do 2 apply (inj (String.append _)) in Heq. discriminate Heq.
Qed.

(** ** The direction decided is the direction slid (lines 220-341) *)

Section DirectionFacts.

Context {an : Analyses}.
Variable func : Function.
Variable loop_var : string.
Variable loop_min : Expr.

Lemma can_slide_up_verdict min_req :
  can_slide_up loop_var min_req = true
  <-> is_monotonic min_req loop_var = Increasing
      \/ is_monotonic min_req loop_var = Constant.
Proof.
  unfold can_slide_up.
  destruct (is_monotonic min_req loop_var); split; intros Hv; auto;
    try discriminate; destruct Hv; discriminate.
Qed.

Lemma can_slide_down_verdict max_req :
  can_slide_down loop_var max_req = true
  <-> is_monotonic max_req loop_var = Decreasing
      \/ is_monotonic max_req loop_var = Constant.
Proof.
  unfold can_slide_down.
  destruct (is_monotonic max_req loop_var); split; intros Hv; auto;
    try discriminate; destruct Hv; discriminate.
Qed.

(** The bounds a rewrite writes are those of lines 300-306 or those of
    lines 312-318, for the direction of line 277. *)
Lemma rewrite_bounds_written d idx min_req max_req body stmt st s' st' :
  rewrite_bounds func loop_var loop_min d idx min_req max_req body stmt st
  = Done s' st' ->
  exists b,
    (b = exact_bounds loop_var (can_slide_up loop_var min_req)
           min_req max_req
     \/ b = guarded_bounds loop_var loop_min
              (can_slide_up loop_var min_req) min_req max_req)
    /\ replacements st'
       = alias_update_stages func d
           (redefine_region func (can_slide_up loop_var min_req) d
              (fst b) (snd b) (replacements st)).
Proof.
  unfold rewrite_bounds. intros Hrun. cbv zeta in Hrun.
  destruct (single_point _).
  - destruct (new_loop_min st); [ discriminate | ].
    destruct (exact_bounds _ _ _ _) as [new_min new_max] eqn:Hb.
    destruct (cover_earlier_stages _ _ _ _ _ _); [ | discriminate ].
    injection Hrun as <- <-. exists (new_min, new_max).
    split; [ left; reflexivity | reflexivity ].
  - destruct (guarded_bounds _ _ _ _ _) as [new_min new_max] eqn:Hb.
    destruct (cover_earlier_stages _ _ _ _ _ _); [ | discriminate ].
    injection Hrun as <- <-. exists (new_min, new_max).
    split; [ right; reflexivity | reflexivity ].
Qed.

Lemma slid_min_key up d new_min new_max r :
  alias_update_stages func d (redefine_region func up d new_min new_max r)
    !! (stage_prefix func +:+ d +:+ ".min")
  = if up then Some new_min else r !! (stage_prefix func +:+ d +:+ ".min").
Proof.
  rewrite last_stage_key_kept by auto. unfold redefine_region.
  destruct up; [ apply lookup_insert_eq | ].
  apply lookup_insert_ne, not_eq_sym, min_key_is_not_max_key.
Qed.

Lemma slid_max_key up d new_min new_max r :
  alias_update_stages func d (redefine_region func up d new_min new_max r)
    !! (stage_prefix func +:+ d +:+ ".max")
  = if up then r !! (stage_prefix func +:+ d +:+ ".max") else Some new_max.
Proof.
  rewrite last_stage_key_kept by auto. unfold redefine_region.
  destruct up; [ | apply lookup_insert_eq ].
  apply lookup_insert_ne, min_key_is_not_max_key.
Qed.

(** What a returning [slide] did: it left the replacements alone, or it
    went through the rewrite, in which case a direction was enabled and
    the overlap guard did not fire. *)
Lemma slide_cases d idx min_req max_req body stmt st s' st' :
  slide func loop_var loop_min d idx min_req max_req body stmt st
  = Done s' st' ->
  replacements st' = replacements st
  \/ (can_slide_up loop_var min_req || can_slide_down loop_var max_req
      = true
      /\ exists b,
           (b = exact_bounds loop_var (can_slide_up loop_var min_req)
                  min_req max_req
            \/ b = guarded_bounds loop_var loop_min
                     (can_slide_up loop_var min_req) min_req max_req)
           /\ replacements st'
              = alias_update_stages func d
                  (redefine_region func (can_slide_up loop_var min_req) d
                     (fst b) (snd b) (replacements st))).
Proof.
  unfold slide. intros Hrun.
  destruct (can_slide_up loop_var min_req) eqn:Hup,
           (can_slide_down loop_var max_req) eqn:Hdown;
    cbn [negb andb orb] in *;
    try (injection Hrun as <- <-; left; reflexivity);
    (destruct (no_overlap _ _ _);
     [ injection Hrun as <- <-; left; reflexivity | ]);
    right; (split; [ reflexivity | ]);
    apply rewrite_bounds_written in Hrun; rewrite Hup in Hrun;
    exact Hrun.
Qed.

(** With a direction enabled and the overlap guard silent, a returning
    [slide] is a returning rewrite. *)
Lemma slide_rewrote d idx min_req max_req body stmt st s' st' :
  can_slide_up loop_var min_req || can_slide_down loop_var max_req = true ->
  no_overlap loop_var min_req max_req = false ->
  slide func loop_var loop_min d idx min_req max_req body stmt st
  = Done s' st' ->
  exists b,
    (b = exact_bounds loop_var (can_slide_up loop_var min_req)
           min_req max_req
     \/ b = guarded_bounds loop_var loop_min
              (can_slide_up loop_var min_req) min_req max_req)
    /\ replacements st'
       = alias_update_stages func d
           (redefine_region func (can_slide_up loop_var min_req) d
              (fst b) (snd b) (replacements st)).
Proof.
  intros Hdir Hno Hrun.
  rewrite (slide_rewrites func loop_var loop_min _ _ _ _ _ _ _ Hdir Hno)
    in Hrun.
  apply rewrite_bounds_written in Hrun. exact Hrun.
Qed.

End DirectionFacts.

(** C1.  At a producer of the stage whose sliding dimension is selected
    and passes the purity guard, with [min_required] and [max_required]
    its expanded bounds.
    Sliding up is enabled exactly when the oracle classifies
    [min_required] as Increasing or Constant in the loop variable, sliding
    down exactly when it classifies [max_required] as Decreasing or
    Constant.
    The verdicts decide what is slid.  Whenever the visit returns: the
    min of the dimension is redefined only under the verdict for sliding
    up, the max only under the verdict for sliding down and not that for
    sliding up; and when the overlap guard lets the producer through,
    under the verdict for up the min becomes the previous iteration's max
    plus one (bare, or as the second arm of the warmup select) and the
    max is left alone, and under the verdict for down alone the max
    becomes the previous iteration's min minus one (bare, or as the
    second arm of the select) and the min is left alone.
    For each bound classified Unknown the record (loop variable,
    expression) is appended to the logger's records, min first, and
    nothing else is.
    Under neither verdict the visit returns the producer as it is, with
    no state changed but those records: it does not fail. *)
Theorem direction_follows_monotonicity `{Analyses}
    (func : Function) (loop_var : string) (loop_min : Expr)
    (scope : Scope) (name : string) (body : Stmt) (st : SliderState)
    (c : DimChoice) (min_req max_req : Expr) :
  select_dim func loop_var scope = Some c ->
  min_required c = Some min_req ->
  max_required c = Some max_req ->
  updates_pure (func_updates func) (dim c) (dim_idx c) = Some true ->
  let rising :=
    is_monotonic min_req loop_var = Increasing
    \/ is_monotonic min_req loop_var = Constant in
  let falling :=
    is_monotonic max_req loop_var = Decreasing
    \/ is_monotonic max_req loop_var = Constant in
  let min_key := stage_prefix func +:+ dim c +:+ ".min" in
  let max_key := stage_prefix func +:+ dim c +:+ ".max" in
  let warmup := LE (Var loop_var) loop_min in
  let above_previous_max := prev_max_plus_one loop_var max_req in
  let below_previous_min := prev_min_minus_one loop_var min_req in
  (can_slide_up loop_var min_req = true <-> rising)
  /\ (can_slide_down loop_var max_req = true <-> falling)
  /\ (forall s' st',
        visit_producer func loop_var loop_min scope name body st
        = Done s' st' ->
        (replacements st' !! min_key <> replacements st !! min_key ->
         rising)
        /\ (replacements st' !! max_key <> replacements st !! max_key ->
            falling /\ ~ rising)
        /\ (no_overlap loop_var min_req max_req = false ->
            rising ->
            (replacements st' !! min_key = Some above_previous_max
             \/ replacements st' !! min_key
                = Some (Select warmup min_req
                          (likely_if_innermost above_previous_max)))
            /\ replacements st' !! max_key = replacements st !! max_key)
        /\ (no_overlap loop_var min_req max_req = false ->
            ~ rising -> falling ->
            (replacements st' !! max_key = Some below_previous_min
             \/ replacements st' !! max_key
                = Some (Select warmup max_req
                          (likely_if_innermost below_previous_min)))
            /\ replacements st' !! min_key = replacements st !! min_key)
        /\ logger (globals st')
           = (fun records =>
                records ++ unknown_record loop_var min_req
                        ++ unknown_record loop_var max_req)%list
             <$> logger (globals st))
  /\ (~ rising -> ~ falling ->
      visit_producer func loop_var loop_min scope name body st
      = Done (ProducerConsumer name true body)
             (logged loop_var st min_req max_req)).
Proof.
  intros Hsel Hmin Hmax Hpure rising falling min_key max_key warmup
    above_previous_max below_previous_min.
  pose proof (can_slide_up_verdict loop_var min_req) as Hup.
  pose proof (can_slide_down_verdict loop_var max_req) as Hdown.
  fold rising in Hup. fold falling in Hdown.
  rewrite (visit_producer_selected func loop_var loop_min scope name body
             st c min_req max_req Hsel Hmin Hmax Hpure).
  split; [ exact Hup | ]. split; [ exact Hdown | ]. split.
  - intros s' st' Hrun.
    assert (Hlookups :
      (replacements st' !! min_key = replacements st !! min_key
       /\ replacements st' !! max_key = replacements st !! max_key)
      \/ (can_slide_up loop_var min_req || can_slide_down loop_var max_req
          = true
          /\ exists b,
               (b = exact_bounds loop_var (can_slide_up loop_var min_req)
                      min_req max_req
                \/ b = guarded_bounds loop_var loop_min
                         (can_slide_up loop_var min_req) min_req max_req)
               /\ replacements st' !! min_key
                  = (if can_slide_up loop_var min_req then Some (fst b)
                     else replacements st !! min_key)
               /\ replacements st' !! max_key
                  = (if can_slide_up loop_var min_req
                     then replacements st !! max_key
                     else Some (snd b)))).
    { destruct (slide_cases _ _ _ _ _ _ _ _ _ _ _ _ Hrun)
        as [Hsame | (Hdir & b & Hb & Hrepl)].
      - left. rewrite Hsame. split; reflexivity.
      - right. split; [ exact Hdir | ]. exists b. split; [ exact Hb | ].
        rewrite Hrepl. split; [ apply slid_min_key | apply slid_max_key ]. }
    split; [ | split; [ | split; [ | split ] ] ].
    + intros Hchanged.
      destruct Hlookups as [[Hsame _] | (_ & b & _ & Hnew & _)];
        [ contradiction | ].
      apply Hup. destruct (can_slide_up loop_var min_req);
        [ reflexivity | contradiction ].
    + intros Hchanged.
      destruct Hlookups as [[_ Hsame] | (Hdir & b & _ & _ & Hnew)];
        [ contradiction | ].
      destruct (can_slide_up loop_var min_req) eqn:Hu;
        [ contradiction | ].
      split; [ apply Hdown; exact Hdir | ].
      intros Hr. apply Hup in Hr. discriminate Hr.
    + intros Hno Hr. apply Hup in Hr.
      destruct (slide_rewrote _ _ _ _ _ _ _ _ _ _ _ _
                  ltac:(rewrite Hr; reflexivity) Hno Hrun)
        as (b & Hb & Hrepl).
      rewrite Hr in Hb. unfold min_key, max_key.
      rewrite Hrepl, slid_min_key, slid_max_key, Hr.
      split; [ | reflexivity ].
      destruct Hb as [-> | ->]; [ left | right ]; reflexivity.
    + intros Hno Hr Hf. apply Hdown in Hf.
      assert (Hu : can_slide_up loop_var min_req = false).
      { destruct (can_slide_up loop_var min_req); [ | reflexivity ].
        exfalso. apply Hr, Hup. reflexivity. }
      destruct (slide_rewrote _ _ _ _ _ _ _ _ _ _ _ _
                  ltac:(rewrite Hu, Hf; reflexivity) Hno Hrun)
        as (b & Hb & Hrepl).
      rewrite Hu in Hb. unfold min_key, max_key.
      rewrite Hrepl, slid_min_key, slid_max_key, Hu.
      split; [ | reflexivity ].
      destruct Hb as [-> | ->]; [ left | right ]; reflexivity.
    + rewrite (slide_logger _ _ _ _ _ _ _ _ _ _ _ _ Hrun).
      apply logged_logger.
  - intros Hr Hf. apply slide_not_monotonic.
    + destruct (can_slide_up loop_var min_req); [ | reflexivity ].
      exfalso. apply Hr, Hup. reflexivity.
    + destruct (can_slide_down loop_var max_req); [ | reflexivity ].
      exfalso. apply Hf, Hdown. reflexivity.
Qed.

(** A footprint whose max is fixed and whose min the oracle cannot
    classify: the min is reported and left alone, and the max is what is
    redefined. *)
Lemma direction_follows_monotonicity_witness :
  match visit_producer (an := Reference.analyses) Samples.f "y"
          (Var "y.loop_min") Samples.shrinking_scope "f"
          (Provide "f" [IntImm 0] [Var "x"]) (fresh_slider Samples.g0) with
  | Done _ st' =>
      is_monotonic (Analyses := Reference.analyses)
        (Mul (Var "y") (IntImm 2)) "y" = Unknown
      /\ is_monotonic (Analyses := Reference.analyses) (IntImm 10) "y"
         = Constant
      /\ logger (globals st') = Some [("y", Mul (Var "y") (IntImm 2))]
      /\ replacements st' !! "f.s0.x.min" = None
      /\ replacements st' !! "f.s0.x.max"
         = Some (Select (LE (Var "y") (Var "y.loop_min")) (IntImm 10)
                   (Call "likely_if_innermost"
                      [Sub (Mul (Sub (Var "y") (IntImm 1)) (IntImm 2))
                           (IntImm 1)]))
  | Failed _ => False
  end.
Proof.
  destruct (visit_producer (an := Reference.analyses) Samples.f "y"
              (Var "y.loop_min") Samples.shrinking_scope "f"
              (Provide "f" [IntImm 0] [Var "x"]) (fresh_slider Samples.g0))
    as [s' st'|failure] eqn:Hrun.
  - destruct (direction_follows_monotonicity (H := Reference.analyses)
                Samples.f "y" (Var "y.loop_min") Samples.shrinking_scope
                "f" (Provide "f" [IntImm 0] [Var "x"])
                (fresh_slider Samples.g0) Samples.shrinking_choice
                (Mul (Var "y") (IntImm 2)) (IntImm 10))
      as (_ & _ & Hdone & _);
      [ vm_compute; reflexivity | reflexivity | reflexivity
      | reflexivity | ].
    destruct (Hdone s' st' Hrun) as (_ & _ & _ & Hdownward & Hlog).
    destruct Hdownward as [Hmax Hmin];
      [ vm_compute; reflexivity
      | intros [Hv | Hv]; vm_compute in Hv; discriminate Hv
      | right; vm_compute; reflexivity | ].
    split; [ vm_compute; reflexivity | ].
    split; [ vm_compute; reflexivity | ].
    split; [ rewrite Hlog; vm_compute; reflexivity | ].
    split; [ exact Hmin | ].
    destruct Hmax as [Hbare | Hguarded]; [ | exact Hguarded ].
    vm_compute in Hrun. injection Hrun as _ <-.
    vm_compute in Hbare. discriminate Hbare.
  - vm_compute in Hrun. discriminate Hrun.
Defined.

(** C5.  At a producer of the stage that has passed dimension selection,
    the purity guard, the direction decision and the overlap guard, with
    [adjacent] = [prev_max_plus_one] when sliding up and
    [prev_min_minus_one] when sliding down.
    If the solver's interval has an upper bound and equal ends, and no
    minimum is recorded yet: the simplified point becomes the new loop
    minimum, unless it equals the loop minimum, in which case none is
    recorded; the bound of the last definition on the sliding side (min
    when up, max when down) is redefined as [adjacent], and the bound on
    the other side is not redefined, so the region is
    [prev_max_plus_one, max_required], respectively
    [min_required, prev_min_minus_one].
    In every other case the bound on the sliding side is redefined as
    [select(loop_var <= loop_min, original bound,
    likely_if_innermost(adjacent))], the other side is not redefined, and
    the recorded loop minimum is what it was. *)
Theorem exact_solve_or_guarded_bound `{Analyses}
    (func : Function) (loop_var : string) (loop_min : Expr)
    (scope : Scope) (name : string) (body : Stmt) (st : SliderState)
    (c : DimChoice) (min_req max_req : Expr) :
  select_dim func loop_var scope = Some c ->
  min_required c = Some min_req ->
  max_required c = Some max_req ->
  updates_pure (func_updates func) (dim c) (dim_idx c) = Some true ->
  can_slide_up loop_var min_req || can_slide_down loop_var max_req = true ->
  no_overlap loop_var min_req max_req = false ->
  func_updates func = []
  \/ is_Some (box_provided body (func_name func) !! dim_idx c) ->
  let up := can_slide_up loop_var min_req in
  let solve_result :=
    solve_new_loop_min loop_var loop_min up
      (unique_name (name_counter (globals st))) min_req max_req in
  let point := simplify (i_max solve_result) in
  let adjacent :=
    if up then prev_max_plus_one loop_var max_req
    else prev_min_minus_one loop_var min_req in
  let original := if up then min_req else max_req in
  let sliding_side :=
    stage_prefix func +:+ dim c +:+ (if up then ".min" else ".max") in
  let other_side :=
    stage_prefix func +:+ dim c +:+ (if up then ".max" else ".min") in
  (single_point solve_result = true ->
   new_loop_min st = None ->
   exists s' st',
     visit_producer func loop_var loop_min scope name body st = Done s' st'
     /\ new_loop_min st' = (if equal point loop_min then None else Some point)
     /\ replacements st' !! sliding_side = Some adjacent
     /\ replacements st' !! other_side = replacements st !! other_side)
  /\ (single_point solve_result = false ->
      exists s' st',
        visit_producer func loop_var loop_min scope name body st
        = Done s' st'
        /\ new_loop_min st' = new_loop_min st
        /\ replacements st' !! sliding_side
           = Some (Select (LE (Var loop_var) loop_min) original
                          (likely_if_innermost adjacent))
        /\ replacements st' !! other_side = replacements st !! other_side).
Proof.
  intros Hsel Hmin Hmax Hpure Hdir Hno Hbox up solve_result point adjacent
         original sliding_side other_side.
  rewrite (visit_producer_selected func loop_var loop_min scope name body st
             c min_req max_req Hsel Hmin Hmax Hpure).
  rewrite slide_rewrites by assumption.
  unfold rewrite_bounds. rewrite logged_counter.
  fold up. fold solve_result.
  assert (Hcover : exists s',
            cover_earlier_stages func up (dim c) (dim_idx c) body
              (ProducerConsumer name true body) = Some s').
  { unfold cover_earlier_stages.
    destruct Hbox as [-> | [b Hb]]; [ eauto | ].
    rewrite Hb. destruct (func_updates func), up; eauto. }
  destruct Hcover as [s' Hcover]. rewrite Hcover.
  assert (Hside : forall new_min new_max,
            alias_update_stages func (dim c)
              (redefine_region func up (dim c) new_min new_max
                 (replacements st)) !! sliding_side
            = Some (if up then new_min else new_max)
            /\ alias_update_stages func (dim c)
                 (redefine_region func up (dim c) new_min new_max
                    (replacements st)) !! other_side
               = replacements st !! other_side).
  { intros new_min new_max. unfold sliding_side, other_side, redefine_region.
    destruct up.
    - rewrite !last_stage_key_kept by auto.
      rewrite lookup_insert_eq, lookup_insert_ne
        by apply min_key_is_not_max_key.
      split; reflexivity.
    - rewrite !last_stage_key_kept by auto.
      rewrite lookup_insert_eq, lookup_insert_ne
        by apply not_eq_sym, min_key_is_not_max_key.
      split; reflexivity. }
  split.
  - intros Hpoint Hnone. rewrite Hpoint.
    unfold logged, with_globals. cbn [new_loop_min replacements globals].
    rewrite Hnone. fold point.
    destruct (exact_bounds loop_var up min_req max_req)
      as [new_min new_max] eqn:Hb.
    destruct (Hside new_min new_max) as [Hs Ho].
    do 2 eexists. split; [ reflexivity | ].
    cbn [new_loop_min replacements].
    split; [ reflexivity | ]. split; [ | exact Ho ].
    rewrite Hs. unfold exact_bounds in Hb. unfold adjacent.
    destruct up; injection Hb as <- <-; reflexivity.
  - intros Hpoint. rewrite Hpoint.
    unfold logged, with_globals. cbn [new_loop_min replacements globals].
    destruct (guarded_bounds loop_var loop_min up min_req max_req)
      as [new_min new_max] eqn:Hb.
    destruct (Hside new_min new_max) as [Hs Ho].
    do 2 eexists. split; [ reflexivity | ].
    cbn [new_loop_min replacements].
    split; [ reflexivity | ]. split; [ | exact Ho ].
    rewrite Hs. unfold guarded_bounds in Hb. unfold adjacent, original.
    destruct up; injection Hb as <- <-; reflexivity.
Qed.

(** The stencil: the solver finds the start [y.loop_min - 2]; the min of
    the stage becomes the previous max plus one. *)
Lemma exact_solve_or_guarded_bound_witness :
  exists s' st',
    visit_producer (an := Reference.analyses) Samples.f "y"
      (Var "y.loop_min") Samples.stencil_scope "f"
      (Provide "f" [IntImm 0] [Var "x"]) (fresh_slider Samples.g0)
    = Done s' st'
    /\ new_loop_min st' = Some (Sub (Var "y.loop_min") (IntImm 2))
    /\ replacements st' !! "f.s0.x.min"
       = Some (Add (Add (Sub (Var "y") (IntImm 1)) (IntImm 2)) (IntImm 1))
    /\ replacements st' !! "f.s0.x.max" = None.
Proof.
  destruct (exact_solve_or_guarded_bound (H := Reference.analyses)
              Samples.f "y" (Var "y.loop_min") Samples.stencil_scope "f"
              (Provide "f" [IntImm 0] [Var "x"]) (fresh_slider Samples.g0)
              Samples.stencil_choice (Var "y") (Add (Var "y") (IntImm 2)))
    as [Hexact _];
    [ vm_compute; reflexivity | reflexivity | reflexivity | reflexivity
    | reflexivity | reflexivity | left; reflexivity | ].
  destruct (Hexact eq_refl eq_refl)
    as (s' & st' & Hrun & Hmin & Hside & Hother).
  exists s', st'. split; [ exact Hrun | ].
  split; [ rewrite Hmin; vm_compute; reflexivity | ].
  split; [ exact Hside | exact Hother ].
Defined.

(** The same producer when the solver finds nothing: the loop start is
    kept and the min is guarded by the position in the loop. *)
Example guarded_fallback :
  visit_producer (an := Reference.unsolved_analyses) Samples.f "y"
    (Var "y.loop_min") Samples.stencil_scope "f"
    (Provide "f" [IntImm 0] [Var "x"]) (fresh_slider Samples.g0)
  = Done Samples.produce_f
      {| replacements :=
           {[ "f.s0.x.min" :=
                Select (LE (Var "y") (Var "y.loop_min")) (Var "y")
                  (Call "likely_if_innermost"
                     [Add (Add (Sub (Var "y") (IntImm 1)) (IntImm 2))
                          (IntImm 1)]) ]};
         new_loop_min := None;
         globals := {| logger := Some []; name_counter := 1 |} |}.
Proof. vm_compute. reflexivity. Qed.

(** Both dimensions of [h] move with the loop: nothing is selected. *)
Example two_dependent_dimensions :
  select_dim (an := Reference.analyses) Samples.h "y" Samples.diagonal_scope
  = Some no_dim
  /\ visit_producer (an := Reference.analyses) Samples.h "y"
       (Var "y.loop_min") Samples.diagonal_scope "h" (Evaluate (IntImm 0))
       (fresh_slider Samples.g0)
     = Done (ProducerConsumer "h" true (Evaluate (IntImm 0)))
            (fresh_slider Samples.g0).
Proof. split; vm_compute; reflexivity. Qed.

(** No dimension of [h] moves with the loop: the last one is selected. *)
Example loop_invariant_footprint :
  select_dim (an := Reference.analyses) Samples.h "y" Samples.fixed_scope
  = Some {| dim := "z"; dim_idx := 1;
            min_required := Some (Var "w");
            max_required := Some (Add (Var "w") (IntImm 3)) |}.
Proof. vm_compute. reflexivity. Qed.

(** The stencil loop from 0 to 9: the new loop starts at -2 and still
    ends at 9. *)
Lemma slid_loop_keeps_upper_bound_witness :
  exists result below env',
    driver_mutate (an := Reference.analyses) Samples.f 9
      (Samples.stencil_loop Serial) Samples.g0
    = Done result {| logger := Some []; name_counter := 1 |}
    /\ enter_lets 3 Samples.loop_env result = Some (env', below)
    /\ eval env' (Var "y.n.loop_min") = Some (-2)
    /\ eval env' (Var "y.n.loop_extent") = Some 12
    /\ eval env'
         (Sub (Add (Var "y.n.loop_min") (Var "y.n.loop_extent")) (IntImm 1))
       = Some 9.
Proof.
  edestruct (slid_loop_keeps_upper_bound (H := Reference.analyses)
               Samples.f 8 "y" (Var "y.loop_extent") Serial DeviceNone
               Samples.stencil_body Samples.g0) as [Hrun Hbound].
  - reflexivity.
  - vm_compute. reflexivity.
  - reflexivity.
  - vm_compute. reflexivity.
  - destruct (Hbound Samples.loop_env (-2) 9) as (env' & Henter & Hmin & Hmax).
    + vm_compute. reflexivity.
    + vm_compute. reflexivity.
    + unfold in_int32. lia.
    + do 2 eexists. exists env'.
      split; [ exact Hrun | ]. split; [ exact Henter | ].
      split; [ exact Hmin | ]. split; [ | exact Hmax ].
      cbn [enter_lets] in Henter. vm_compute in Henter.
      injection Henter as <-. vm_compute. reflexivity.
Defined.

(** ** The whole pass on the stencil *)

(** The annotator records [y.loop_min.orig] around the loop; the slide
    renames the loop, starts it two iterations early and guards the
    consumer against the warmup iterations with the recorded minimum. *)
Example sliding_window_stencil :
  sliding_window (H := Reference.analyses) 12 Samples.stencil_program
    {[ "f" := Samples.f ]} Samples.g0
  = Done
      (Realize "f" [(IntImm 0, IntImm 16)] (IntImm 1)
         (LetStmt "y.loop_min.orig" (Var "y.loop_min")
            (LetStmt "y.n.loop_min" (Sub (Var "y.loop_min") (IntImm 2))
               (LetStmt "y.n.loop_min.orig" (Var "y.n.loop_min")
                  (LetStmt "y.n.loop_extent"
                     (Add (Sub (Var "y.loop_max") (Var "y.n.loop_min"))
                          (IntImm 1))
                     (LetStmt "y.n.loop_max"
                        (Sub (Add (Var "y.n.loop_min")
                                  (Var "y.n.loop_extent"))
                             (IntImm 1))
                        (For "y.n" (Var "y.n.loop_min")
                           (Var "y.n.loop_extent") Serial DeviceNone
                           (LetStmt "f.s0.x.max"
                              (Add (Var "y.n") (IntImm 2))
                              (LetStmt "f.s0.x.min"
                                 (Add (Add (Sub (Var "y.n") (IntImm 1))
                                           (IntImm 2))
                                      (IntImm 1))
                                 (Block Samples.produce_f
                                    (ProducerConsumer "f" false
                                       (IfThenElse
                                          (Call "likely_if_innermost"
                                             [GE (Var "y.n")
                                                 (Var "y.loop_min.orig")])
                                          (Provide "g" [Var "f"]
                                             [Var "y.n"])
                                          None))))))))))))
      {| logger := Some []; name_counter := 1 |}.
Proof. vm_compute. reflexivity. Qed.

(** * Further properties of the code *)

(** ** Dependence check and scoped expansion (lines 26-86) *)

Lemma Expr_nested_ind (P : Expr -> Prop) :
  (forall v, P (IntImm v)) ->
  (forall name, P (Var name)) ->
  (forall op a b, P a -> P b -> P (Bin op a b)) ->
  (forall a, P a -> P (Not a)) ->
  (forall c t f, P c -> P t -> P f -> P (Select c t f)) ->
  (forall name value body, P value -> P body -> P (Let name value body)) ->
  (forall name args, Forall P args -> P (Call name args)) ->
  forall e, P e.
Proof.
  intros Himm Hvar Hbin Hnot Hsel Hlet Hcall. fix IH 1.
  intros [v|name|op a b|a|c t f|name value body|name args].
  - apply Himm.
  - apply Hvar.
  - apply Hbin; apply IH.
  - apply Hnot; apply IH.
  - apply Hsel; apply IH.
  - apply Hlet; apply IH.
  - apply Hcall. induction args as [|a args IHargs]; constructor.
    + apply IH.
    + exact IHargs.
Qed.

Lemma eval_agree (e : Expr) (v : string) :
  expr_depends_on_var e v = false ->
  forall env1 env2 : gmap string Z,
    (forall x, x <> v -> env1 !! x = env2 !! x) ->
    eval env1 e = eval env2 e.
Proof.
  induction e as [k|name|op a b IHa IHb|a IHa|c t f IHc IHt IHf
                 |name value body IHv IHb|name args _]
    using Expr_nested_ind; intros Hdep env1 env2 Hagree; simpl in *.
  - reflexivity.
  - apply Hagree. apply bool_decide_eq_false in Hdep. exact Hdep.
  - apply orb_false_iff in Hdep as [Ha Hb].
    rewrite (IHa Ha env1 env2 Hagree), (IHb Hb env1 env2 Hagree).
    reflexivity.
  - rewrite (IHa Hdep env1 env2 Hagree). reflexivity.
  - apply orb_false_iff in Hdep as [Hct Hf].
    apply orb_false_iff in Hct as [Hc Ht].
    rewrite (IHc Hc env1 env2 Hagree), (IHt Ht env1 env2 Hagree),
      (IHf Hf env1 env2 Hagree). reflexivity.
  - apply orb_false_iff in Hdep as [Hv Hb].
    rewrite (IHv Hv env1 env2 Hagree).
    destruct (eval env2 value) as [x|]; [ | reflexivity ].
    destruct (bool_decide (name = v)) eqn:Hname.
    + apply bool_decide_eq_true in Hname. subst name.
      f_equal. apply map_eq. intros y.
      destruct (decide (v = y)) as [<-|Hne].
      * rewrite !lookup_insert_eq. reflexivity.
      * rewrite !lookup_insert_ne by exact Hne. apply Hagree. auto.
    + apply IHb; [ exact Hb | ]. intros y Hy.
      destruct (decide (name = y)) as [<-|Hne].
      * rewrite !lookup_insert_eq. reflexivity.
      * rewrite !lookup_insert_ne by exact Hne. apply Hagree. exact Hy.
  - reflexivity.
Qed.

(** X1.  An expression that [expr_depends_on_var] reports as not
    depending on a variable evaluates to the same result whatever value
    the variable has; an inner binding of the same name is what makes the
    skipped body safe to skip. *)
Theorem independent_expr_ignores_var (e : Expr) (v : string)
    (env : gmap string Z) (x y : Z) :
  expr_depends_on_var e v = false ->
  eval (<[v := x]> env) e = eval (<[v := y]> env) e.
Proof.
  intros Hdep. apply (eval_agree e v Hdep). intros z Hz.
  rewrite !lookup_insert_ne by auto. reflexivity.
Qed.

Lemma independent_expr_ignores_var_witness :
  eval (<["y" := 3]> ∅)
    (Add (Var "w") (Let "y" (IntImm 1) (Add (Var "y") (Var "w"))))
  = eval (<["y" := 8]> ∅)
      (Add (Var "w") (Let "y" (IntImm 1) (Add (Var "y") (Var "w")))).
Proof.
  apply (independent_expr_ignores_var
           (Add (Var "w") (Let "y" (IntImm 1) (Add (Var "y") (Var "w"))))
           "y" ∅ 3 8).
  reflexivity.
Defined.

(** X2.  Expansion leaves an expression as it is when the scope contains
    none of the variable names that occur in it; in particular in the
    empty scope. *)
Theorem expand_expr_without_bindings (e : Expr) (scope : Scope) :
  Forall (fun x => scope_contains scope x = false) (expr_vars e) ->
  expand_expr e scope = e.
Proof.
  induction e as [k|name|op a b IHa IHb|a IHa|c t f IHc IHt IHf
                 |name value body IHv IHb|name args IHargs]
    using Expr_nested_ind; simpl; intros Hfree.
  - reflexivity.
  - inversion Hfree as [|? ? Hname _]; subst.
    unfold scope_contains in Hname. unfold scope_find.
    destruct (scope !! name) as [[|? ?]|]; first [ reflexivity | discriminate ].
  - apply Forall_app in Hfree as [Ha Hb].
    rewrite IHa, IHb by assumption. reflexivity.
  - rewrite IHa by assumption. reflexivity.
  - apply Forall_app in Hfree as [Hc Htf].
    apply Forall_app in Htf as [Ht Hf].
    rewrite IHc, IHt, IHf by assumption. reflexivity.
  - apply Forall_app in Hfree as [Hv Hb].
    rewrite IHv, IHb by assumption. reflexivity.
  - f_equal. induction args as [|a args IH]; [ reflexivity | ].
    simpl in Hfree. apply Forall_app in Hfree as [Ha Hrest].
    inversion IHargs as [|? ? Hhead Htail]; subst.
    simpl. rewrite (Hhead Ha), (IH Htail Hrest). reflexivity.
Qed.

Lemma expand_expr_without_bindings_witness :
  expand_expr (Add (Var "w") (Call "f" [Var "z"; IntImm 2]))
    Samples.stencil_scope
  = Add (Var "w") (Call "f" [Var "z"; IntImm 2]).
Proof.
  apply (expand_expr_without_bindings
           (Add (Var "w") (Call "f" [Var "z"; IntImm 2]))
           Samples.stencil_scope).
  repeat constructor.
Defined.

(** X3.  Expansion cannot make an expression depend on a variable: if the
    expression does not depend on it and no binding on top of the scope
    does, the expanded expression does not depend on it either. *)
Theorem expand_expr_keeps_independence (e : Expr) (scope : Scope)
    (v : string) :
  (forall x bound, scope_find scope x = Some bound ->
                   expr_depends_on_var bound v = false) ->
  expr_depends_on_var e v = false ->
  expr_depends_on_var (expand_expr e scope) v = false.
Proof.
  intros Hscope.
  induction e as [k|name|op a b IHa IHb|a IHa|c t f IHc IHt IHf
                 |name value body IHv IHb|name args IHargs]
    using Expr_nested_ind; simpl; intros Hdep.
  - reflexivity.
  - destruct (scope_find scope name) as [bound|] eqn:Hfind.
    + apply (Hscope name bound Hfind).
    + exact Hdep.
  - apply orb_false_iff in Hdep as [Ha Hb].
    rewrite IHa, IHb by assumption. reflexivity.
  - apply IHa. exact Hdep.
  - apply orb_false_iff in Hdep as [Hct Hf].
    apply orb_false_iff in Hct as [Hc Ht].
    rewrite IHc, IHt, IHf by assumption. reflexivity.
  - apply orb_false_iff in Hdep as [Hv Hb].
    rewrite IHv by assumption. simpl.
    destruct (bool_decide (name = v)); [ reflexivity | ].
    apply IHb. exact Hb.
  - induction args as [|a args IH]; [ reflexivity | ].
    simpl in Hdep |- *. apply orb_false_iff in Hdep as [Ha Hrest].
    inversion IHargs as [|? ? Hhead Htail]; subst.
    rewrite (Hhead Ha), (IH Htail Hrest). reflexivity.
Qed.

Lemma expand_expr_keeps_independence_witness :
  expr_depends_on_var
    (expand_expr (Add (Var "h.s0.z.max") (Var "w")) Samples.fixed_scope) "y"
  = false.
Proof.
  apply (expand_expr_keeps_independence
           (Add (Var "h.s0.z.max") (Var "w")) Samples.fixed_scope "y").
  - intros x bound Hfind. unfold scope_find in Hfind.
    destruct (decide (x = "h.s0.x.min")) as [->|H1];
      [ vm_compute in Hfind; injection Hfind as <-; reflexivity | ].
    destruct (decide (x = "h.s0.x.max")) as [->|H2];
      [ vm_compute in Hfind; injection Hfind as <-; reflexivity | ].
    destruct (decide (x = "h.s0.z.min")) as [->|H3];
      [ vm_compute in Hfind; injection Hfind as <-; reflexivity | ].
    destruct (decide (x = "h.s0.z.max")) as [->|H4];
      [ vm_compute in Hfind; injection Hfind as <-; reflexivity | ].
    unfold Samples.fixed_scope, scope_push in Hfind.
    rewrite !lookup_insert_ne in Hfind by auto.
    rewrite lookup_empty in Hfind. discriminate Hfind.
  - reflexivity.
Defined.

(** ** Invariants of the per-loop slider (lines 142-423) *)

Lemma Stmt_nested_ind (P : Stmt -> Prop) :
  (forall name is_producer body,
     P body -> P (ProducerConsumer name is_producer body)) ->
  (forall name min extent for_type device_api body,
     P body -> P (For name min extent for_type device_api body)) ->
  (forall name value body, P body -> P (LetStmt name value body)) ->
  (forall c t, P t -> P (IfThenElse c t None)) ->
  (forall c t e, P t -> P e -> P (IfThenElse c t (Some e))) ->
  (forall a b, P a -> P b -> P (Block a b)) ->
  (forall name bounds c body, P body -> P (Realize name bounds c body)) ->
  (forall sem cnt body, P body -> P (Acquire sem cnt body)) ->
  (forall name values args, P (Provide name values args)) ->
  (forall v, P (Evaluate v)) ->
  forall s, P s.
Proof.
  intros Hpc Hfor Hlet Hif Hife Hblock Hrealize Hacquire Hprovide Heval.
  fix IH 1.
  intros [name p body|name mn ex t d body|name v body|c t [e|]|a b
         |name bs c body|sem cnt body|name vs args|v].
  - apply Hpc, IH.
  - apply Hfor, IH.
  - apply Hlet, IH.
  - apply Hife; apply IH.
  - apply Hif, IH.
  - apply Hblock; apply IH.
  - apply Hrealize, IH.
  - apply Hacquire, IH.
  - apply Hprovide.
  - apply Heval.
Qed.

Lemma bind_done {S A B} (m : M S A) (k : A -> M S B) st b st' :
  bind m k st = Done b st' ->
  exists a st1, m st = Done a st1 /\ k a st1 = Done b st'.
Proof.
  unfold bind. destruct (m st) as [a st1|f]; [ eauto | discriminate ].
Qed.

Lemma ret_done {S A} (a b : A) (st st' : S) :
  ret a st = Done b st' -> a = b /\ st = st'.
Proof. unfold ret. intros Hd. injection Hd as -> ->. split; reflexivity. Qed.

Section SliderInvariants.

Context {an : Analyses}.
Variable func : Function.
Variable loop_var : string.
Variable loop_min : Expr.

Local Abbreviation run := (mutate func loop_var loop_min).

(** A statement that contains no producer of the stage comes back from a
    slider without pending replacement or recorded minimum exactly as it
    went in, and the slider's state is untouched. *)
Lemma slider_identity_without_producer (s : Stmt) :
  forall (scope : Scope) (st : SliderState),
    find_produce s (func_name func) = false ->
    replacements st = ∅ ->
    new_loop_min st = None ->
    run scope s st = Done s st.
Proof.
  induction s as [name p body IH|name mn ex t d body IH|name v body IH
                 |c t IHt|c t e IHt IHe|a b IHa IHb|name bs c body IH
                 |sem cnt body IH|name vs args|v]
    using Stmt_nested_ind; intros scope st Hfind Hrep Hmin.
  - cbn [mutate]. destruct p.
    + simpl in Hfind.
      destruct (bool_decide (name = func_name func)); [ discriminate | ].
      cbn [negb]. unfold bind, ret. rewrite IH by assumption. reflexivity.
    + rewrite Hmin. rewrite (bool_decide_eq_false_2 (is_Some None))
        by (intros [? Hx]; discriminate Hx).
      rewrite andb_false_r. simpl in Hfind.
      unfold bind, ret. rewrite IH by assumption. reflexivity.
  - cbn [mutate]. simpl in Hfind.
    destruct (is_const_one (expand_expr ex scope)).
    + unfold visit_LetStmt, bind. rewrite IH by assumption.
      rewrite Hrep, lookup_empty. reflexivity.
    + destruct (_ || _); [ reflexivity | ].
      unfold bind, ret. rewrite IH by assumption. reflexivity.
  - cbn [mutate]. simpl in Hfind.
    unfold visit_LetStmt, bind. rewrite IH by assumption.
    rewrite Hrep, lookup_empty. reflexivity.
  - cbn [mutate]. simpl in Hfind. rewrite orb_false_r in Hfind.
    unfold bind, ret. rewrite IHt by assumption. reflexivity.
  - cbn [mutate]. simpl in Hfind. apply orb_false_iff in Hfind as [Ht He].
    unfold bind, ret. rewrite IHt by assumption.
    rewrite IHe by assumption. reflexivity.
  - cbn [mutate]. simpl in Hfind. apply orb_false_iff in Hfind as [Ha Hb].
    unfold bind, ret. rewrite IHa by assumption.
    rewrite IHb by assumption. reflexivity.
  - cbn [mutate]. simpl in Hfind.
    unfold bind, ret. rewrite IH by assumption. reflexivity.
  - cbn [mutate]. simpl in Hfind.
    unfold bind, ret. rewrite IH by assumption. reflexivity.
  - reflexivity.
  - reflexivity.
Qed.

Lemma rewrite_bounds_keeps_min d idx min_req max_req body stmt st s' st' e :
  rewrite_bounds func loop_var loop_min d idx min_req max_req body stmt st
  = Done s' st' ->
  new_loop_min st = Some e ->
  new_loop_min st' = Some e.
Proof.
  unfold rewrite_bounds. intros Hrun Hmin. rewrite Hmin in Hrun.
  destruct (single_point _); [ discriminate | ].
  destruct (guarded_bounds _ _ _ _ _) as [new_min new_max].
  destruct (cover_earlier_stages _ _ _ _ _ _); [ | discriminate ].
  injection Hrun as _ <-. reflexivity.
Qed.

Lemma visit_producer_keeps_min scope name body st s' st' e :
  visit_producer func loop_var loop_min scope name body st = Done s' st' ->
  new_loop_min st = Some e ->
  new_loop_min st' = Some e.
Proof.
  unfold visit_producer, slide. intros Hrun Hmin.
  destruct (select_dim _ _ _) as [c|]; [ | discriminate ].
  destruct (min_required c) as [min_req|];
    [ | injection Hrun as _ <-; exact Hmin ].
  destruct (max_required c) as [max_req|]; [ | discriminate ].
  destruct (updates_pure _ _ _) as [[|]|];
    [ | injection Hrun as _ <-; exact Hmin | discriminate ].
  destruct (negb _ && negb _); [ injection Hrun as _ <-; exact Hmin | ].
  destruct (no_overlap _ _ _); [ injection Hrun as _ <-; exact Hmin | ].
  eapply rewrite_bounds_keeps_min; [ exact Hrun | exact Hmin ].
Qed.

(** X4.  Within one slider, a recorded new loop minimum is never changed
    or dropped: whatever statement is mutated afterwards, a run that
    returns still holds the same minimum. *)
Theorem recorded_loop_min_is_kept (s : Stmt) :
  forall (scope : Scope) (st : SliderState) (s' : Stmt)
         (st' : SliderState) (e : Expr),
    run scope s st = Done s' st' ->
    new_loop_min st = Some e ->
    new_loop_min st' = Some e.
Proof.
  induction s as [name p body IH|name mn ex t d body IH|name v body IH
                 |c t IHt|c t e0 IHt IHe|a b IHa IHb|name bs c body IH
                 |sem cnt body IH|name vs args|v]
    using Stmt_nested_ind; intros scope st s' st' e Hrun Hmin;
    cbn [mutate] in Hrun.
  - destruct p.
    + destruct (negb _).
      * apply bind_done in Hrun as (b' & st1 & Hb & Hret).
        apply ret_done in Hret as [_ <-]. eapply IH; eassumption.
      * eapply visit_producer_keeps_min; eassumption.
    + destruct (_ && _);
        apply bind_done in Hrun as (b' & st1 & Hb & Hret);
        apply ret_done in Hret as [_ <-]; eapply IH; eassumption.
  - destruct (is_const_one _).
    + apply bind_done in Hrun as (l & st1 & Hl & Hret).
      unfold visit_LetStmt in Hl.
      apply bind_done in Hl as (b' & st2 & Hb & Hlet).
      assert (Hst1 : new_loop_min st1 = Some e).
      { destruct (replacements st2 !! name);
          injection Hlet as _ <-; simpl; eapply IH; eassumption. }
      destruct l; try discriminate.
      apply ret_done in Hret as [_ <-]. exact Hst1.
    + destruct (_ || _).
      * apply ret_done in Hrun as [_ <-]. exact Hmin.
      * apply bind_done in Hrun as (b' & st1 & Hb & Hret).
        apply ret_done in Hret as [_ <-]. eapply IH; eassumption.
  - unfold visit_LetStmt in Hrun.
    apply bind_done in Hrun as (b' & st2 & Hb & Hlet).
    destruct (replacements st2 !! name);
      injection Hlet as _ <-; simpl; eapply IH; eassumption.
  - apply bind_done in Hrun as (t' & st1 & Ht & Hret).
    apply ret_done in Hret as [_ <-]. eapply IHt; eassumption.
  - apply bind_done in Hrun as (t' & st1 & Ht & Hrest).
    apply bind_done in Hrest as (e' & st2 & He & Hret).
    apply ret_done in Hret as [_ <-].
    eapply IHe; [ eassumption | ]. eapply IHt; eassumption.
  - apply bind_done in Hrun as (a' & st1 & Ha & Hrest).
    apply bind_done in Hrest as (b' & st2 & Hb & Hret).
    apply ret_done in Hret as [_ <-].
    eapply IHb; [ eassumption | ]. eapply IHa; eassumption.
  - apply bind_done in Hrun as (b' & st1 & Hb & Hret).
    apply ret_done in Hret as [_ <-]. eapply IH; eassumption.
  - apply bind_done in Hrun as (b' & st1 & Hb & Hret).
    apply ret_done in Hret as [_ <-]. eapply IH; eassumption.
  - apply ret_done in Hrun as [_ <-]. exact Hmin.
  - apply ret_done in Hrun as [_ <-]. exact Hmin.
Qed.

End SliderInvariants.

(** A slider that already holds the minimum [start] meets the stencil,
    with a solver that finds nothing. *)
Lemma recorded_loop_min_is_kept_witness :
  match mutate (an := Reference.unsolved_analyses) Samples.f "y"
          (Var "y.loop_min") Samples.stencil_scope
          (Block Samples.produce_f Samples.consume_f)
          {| replacements := ∅; new_loop_min := Some (Var "start");
             globals := Samples.g0 |} with
  | Done _ st' => new_loop_min st' = Some (Var "start")
  | Failed _ => False
  end.
Proof.
  destruct (mutate (an := Reference.unsolved_analyses) Samples.f "y"
              (Var "y.loop_min") Samples.stencil_scope
              (Block Samples.produce_f Samples.consume_f)
              {| replacements := ∅; new_loop_min := Some (Var "start");
                 globals := Samples.g0 |}) as [s' st'|f] eqn:Hrun.
  - apply (recorded_loop_min_is_kept (an := Reference.unsolved_analyses)
             Samples.f "y" (Var "y.loop_min")
             (Block Samples.produce_f Samples.consume_f)
             Samples.stencil_scope _ s' st' (Var "start") Hrun).
    reflexivity.
  - vm_compute in Hrun. discriminate Hrun.
Defined.

(** ** The globals only grow (lines 230-241, 277) *)

Lemma globals_extend_refl g : globals_extend g g.
Proof.
  split; [ | lia ]. exists []. destruct (logger g); simpl;
    rewrite ?app_nil_r; reflexivity.
Qed.

Lemma globals_extend_trans g1 g2 g3 :
  globals_extend g1 g2 -> globals_extend g2 g3 -> globals_extend g1 g3.
Proof.
  intros [[e1 H1] Hc1] [[e2 H2] Hc2]. split; [ | lia ].
  exists (e1 ++ e2)%list. rewrite H2, H1.
  destruct (logger g1); simpl; [ rewrite app_assoc | ]; reflexivity.
Qed.

Lemma log_if_unknown_extends `{Analyses} loop_var e g :
  globals_extend g (log_if_unknown loop_var e g).
Proof.
  split.
  - eexists. apply log_if_unknown_logger.
  - rewrite log_if_unknown_counter. lia.
Qed.

Section GlobalsGrow.

Context {an : Analyses}.

Lemma visit_producer_extends func loop_var loop_min scope name body st s' st' :
  visit_producer func loop_var loop_min scope name body st = Done s' st' ->
  globals_extend (globals st) (globals st').
Proof.
  unfold visit_producer, slide. intros Hrun.
  destruct (select_dim _ _ _) as [c|]; [ | discriminate ].
  destruct (min_required c) as [min_req|];
    [ | injection Hrun as _ <-; apply globals_extend_refl ].
  destruct (max_required c) as [max_req|]; [ | discriminate ].
  assert (Hlog : globals_extend (globals st)
                   (log_if_unknown loop_var max_req
                      (log_if_unknown loop_var min_req (globals st))))
    by (eapply globals_extend_trans; apply log_if_unknown_extends).
  destruct (updates_pure _ _ _) as [[|]|];
    [ | injection Hrun as _ <-; apply globals_extend_refl | discriminate ].
  destruct (negb _ && negb _); [ injection Hrun as _ <-; exact Hlog | ].
  destruct (no_overlap _ _ _); [ injection Hrun as _ <-; exact Hlog | ].
  unfold rewrite_bounds in Hrun.
  destruct (if single_point _ then _ else _) as [[nlm [new_min new_max]]|];
    [ | discriminate ].
  destruct (cover_earlier_stages _ _ _ _ _ _); [ | discriminate ].
  injection Hrun as _ <-. cbn [globals].
  eapply globals_extend_trans; [ exact Hlog | ].
  split; [ exists []; cbn [logger] | cbn [name_counter]; lia ].
  destruct (logger _); simpl; rewrite ?app_nil_r; reflexivity.
Qed.

Lemma slider_extends func loop_var loop_min (s : Stmt) :
  forall scope st s' st',
    mutate func loop_var loop_min scope s st = Done s' st' ->
    globals_extend (globals st) (globals st').
Proof.
  induction s as [name p body IH|name mn ex t d body IH|name v body IH
                 |c t IHt|c t e0 IHt IHe|a b IHa IHb|name bs c body IH
                 |sem cnt body IH|name vs args|v]
    using Stmt_nested_ind; intros scope st s' st' Hrun;
    cbn [mutate] in Hrun.
  - destruct p.
    + destruct (negb _).
      * apply bind_done in Hrun as (b' & st1 & Hb & Hret).
        apply ret_done in Hret as [_ <-]. eapply IH; eassumption.
      * eapply visit_producer_extends; eassumption.
    + destruct (_ && _);
        apply bind_done in Hrun as (b' & st1 & Hb & Hret);
        apply ret_done in Hret as [_ <-]; eapply IH; eassumption.
  - destruct (is_const_one _).
    + apply bind_done in Hrun as (l & st1 & Hl & Hret).
      unfold visit_LetStmt in Hl.
      apply bind_done in Hl as (b' & st2 & Hb & Hlet).
      assert (Hst1 : globals_extend (globals st) (globals st1)).
      { destruct (replacements st2 !! name);
          injection Hlet as _ <-; simpl; eapply IH; eassumption. }
      destruct l; try discriminate.
      apply ret_done in Hret as [_ <-]. exact Hst1.
    + destruct (_ || _).
      * apply ret_done in Hrun as [_ <-]. apply globals_extend_refl.
      * apply bind_done in Hrun as (b' & st1 & Hb & Hret).
        apply ret_done in Hret as [_ <-]. eapply IH; eassumption.
  - unfold visit_LetStmt in Hrun.
    apply bind_done in Hrun as (b' & st2 & Hb & Hlet).
    destruct (replacements st2 !! name);
      injection Hlet as _ <-; simpl; eapply IH; eassumption.
  - apply bind_done in Hrun as (t' & st1 & Ht & Hret).
    apply ret_done in Hret as [_ <-]. eapply IHt; eassumption.
  - apply bind_done in Hrun as (t' & st1 & Ht & Hrest).
    apply bind_done in Hrest as (e' & st2 & He & Hret).
    apply ret_done in Hret as [_ <-].
    eapply globals_extend_trans; [ eapply IHt | eapply IHe ]; eassumption.
  - apply bind_done in Hrun as (a' & st1 & Ha & Hrest).
    apply bind_done in Hrest as (b' & st2 & Hb & Hret).
    apply ret_done in Hret as [_ <-].
    eapply globals_extend_trans; [ eapply IHa | eapply IHb ]; eassumption.
  - apply bind_done in Hrun as (b' & st1 & Hb & Hret).
    apply ret_done in Hret as [_ <-]. eapply IH; eassumption.
  - apply bind_done in Hrun as (b' & st1 & Hb & Hret).
    apply ret_done in Hret as [_ <-]. eapply IH; eassumption.
  - apply ret_done in Hrun as [_ <-]. apply globals_extend_refl.
  - apply ret_done in Hrun as [_ <-]. apply globals_extend_refl.
Qed.

Lemma slide_over_loop_extends func name min for_type body g r g' :
  slide_over_loop func name min for_type body g = Done r g' ->
  globals_extend g g'.
Proof.
  unfold slide_over_loop. intros Hrun.
  destruct (serial_or_unrolled for_type);
    [ | injection Hrun as _ <-; apply globals_extend_refl ].
  destruct (mutate _ _ _ _ _ _) as [new_body st|] eqn:Hslider;
    [ | discriminate ].
  apply slider_extends in Hslider. cbn [fresh_slider globals] in Hslider.
  destruct (new_loop_min st); [ destruct min; try discriminate | ];
    injection Hrun as _ <-; exact Hslider.
Qed.

Lemma driver_extends func (fuel : nat) :
  forall s g s' g',
    driver_mutate func fuel s g = Done s' g' -> globals_extend g g'.
Proof.
  induction fuel as [|fuel IH]; intros s g s' g' Hrun; [ discriminate | ].
  destruct s as [name p body|name mn ex t d body|name v body|c t [e|]|a b
                |name bs c body|sem cnt body|name vs args|v];
    cbn [driver_mutate] in Hrun.
  - apply bind_done in Hrun as (b' & g1 & Hb & Hret).
    apply ret_done in Hret as [_ <-]. eapply IH; eassumption.
  - unfold visit_For in Hrun.
    apply bind_done in Hrun as (r & g1 & Hslide & Hrest).
    apply bind_done in Hrest as (b' & g2 & Hb & Hret).
    assert (g2 = g') as <-.
    { destruct (ls_min_extent r) as [[? ?]|];
        apply ret_done in Hret as [_ ?]; assumption. }
    eapply globals_extend_trans;
      [ eapply slide_over_loop_extends | eapply IH ]; eassumption.
  - apply bind_done in Hrun as (b' & g1 & Hb & Hret).
    apply ret_done in Hret as [_ <-]. eapply IH; eassumption.
  - apply bind_done in Hrun as (t' & g1 & Ht & Hrest).
    apply bind_done in Hrest as (e' & g2 & He & Hret).
    apply ret_done in Hret as [_ <-].
    eapply globals_extend_trans; eapply IH; eassumption.
  - apply bind_done in Hrun as (t' & g1 & Ht & Hret).
    apply ret_done in Hret as [_ <-]. eapply IH; eassumption.
  - apply bind_done in Hrun as (a' & g1 & Ha & Hrest).
    apply bind_done in Hrest as (b' & g2 & Hb & Hret).
    apply ret_done in Hret as [_ <-].
    eapply globals_extend_trans; eapply IH; eassumption.
  - apply bind_done in Hrun as (b' & g1 & Hb & Hret).
    apply ret_done in Hret as [_ <-]. eapply IH; eassumption.
  - apply bind_done in Hrun as (b' & g1 & Hb & Hret).
    apply ret_done in Hret as [_ <-]. eapply IH; eassumption.
  - apply ret_done in Hrun as [_ <-]. apply globals_extend_refl.
  - apply ret_done in Hrun as [_ <-]. apply globals_extend_refl.
Qed.

Lemma program_extends env fuel (s : Stmt) :
  forall g s' g',
    program_mutate env fuel s g = Done s' g' -> globals_extend g g'.
Proof.
  induction s as [name p body IH|name mn ex t d body IH|name v body IH
                 |c t IHt|c t e0 IHt IHe|a b IHa IHb|name bs c body IH
                 |sem cnt body IH|name vs args|v]
    using Stmt_nested_ind; intros g s' g' Hrun;
    cbn [program_mutate] in Hrun.
  - apply bind_done in Hrun as (b' & g1 & Hb & Hret).
    apply ret_done in Hret as [_ <-]. eapply IH; eassumption.
  - apply bind_done in Hrun as (b' & g1 & Hb & Hret).
    apply ret_done in Hret as [_ <-]. eapply IH; eassumption.
  - apply bind_done in Hrun as (b' & g1 & Hb & Hret).
    apply ret_done in Hret as [_ <-]. eapply IH; eassumption.
  - apply bind_done in Hrun as (t' & g1 & Ht & Hret).
    apply ret_done in Hret as [_ <-]. eapply IHt; eassumption.
  - apply bind_done in Hrun as (t' & g1 & Ht & Hrest).
    apply bind_done in Hrest as (e' & g2 & He & Hret).
    apply ret_done in Hret as [_ <-].
    eapply globals_extend_trans; [ eapply IHt | eapply IHe ]; eassumption.
  - apply bind_done in Hrun as (a' & g1 & Ha & Hrest).
    apply bind_done in Hrest as (b' & g2 & Hb & Hret).
    apply ret_done in Hret as [_ <-].
    eapply globals_extend_trans; [ eapply IHa | eapply IHb ]; eassumption.
  - destruct (env !! name) as [f|].
    + destruct (bool_decide _).
      * apply bind_done in Hrun as (b' & g1 & Hb & Hret).
        apply ret_done in Hret as [_ <-]. eapply IH; eassumption.
      * apply bind_done in Hrun as (b1 & g1 & Hb & Hrest).
        apply bind_done in Hrest as (b2 & g2 & Hd & Hret).
        apply ret_done in Hret as [_ <-].
        eapply globals_extend_trans;
          [ eapply IH | eapply driver_extends ]; eassumption.
    + apply bind_done in Hrun as (b' & g1 & Hb & Hret).
      apply ret_done in Hret as [_ <-]. eapply IH; eassumption.
  - apply bind_done in Hrun as (b' & g1 & Hb & Hret).
    apply ret_done in Hret as [_ <-]. eapply IH; eassumption.
  - apply ret_done in Hrun as [_ <-]. apply globals_extend_refl.
  - apply ret_done in Hrun as [_ <-]. apply globals_extend_refl.
Qed.

End GlobalsGrow.

(** X5.  Whenever the pass returns, the logger has only been appended to
    (records present before are still there, in order, and an absent
    logger is still absent) and the fresh-name counter has not gone
    back. *)
Theorem sliding_window_globals_only_grow `{Analyses} (fuel : nat)
    (s : Stmt) (env : gmap string Function) (g : Globals) (s' : Stmt)
    (g' : Globals) :
  sliding_window fuel s env g = Done s' g' ->
  (exists extra,
     logger g' = (fun records => records ++ extra)%list <$> logger g)
  /\ (name_counter g <= name_counter g')%nat.
Proof.
  unfold sliding_window. intros Hrun.
  apply (program_extends env fuel _ g s' g' Hrun).
Qed.

Lemma sliding_window_globals_only_grow_witness :
  (exists extra,
     logger {| logger := Some []; name_counter := 1 |}
     = (fun records => records ++ extra)%list <$> logger Samples.g0)
  /\ (name_counter Samples.g0 <= 1)%nat.
Proof.
  eapply (sliding_window_globals_only_grow (H := Reference.analyses) 12
            Samples.stencil_program {[ "f" := Samples.f ]} Samples.g0).
  vm_compute. reflexivity.
Defined.

(** ** Stages that are not produced, or not eligible (lines 439-545) *)

Section NothingToSlide.

Context {an : Analyses}.

(** X6.  The per-stage driver returns a tree that holds no producer of
    its stage exactly as it is, with the globals untouched, as soon as
    the recursion bound covers the depth of the tree: no loop is renamed
    and no binding is added. *)
Theorem driver_without_producer_is_identity func (fuel : nat) :
  forall s g,
    find_produce s (func_name func) = false ->
    (stmt_height s <= fuel)%nat ->
    driver_mutate func fuel s g = Done s g.
Proof.
  induction fuel as [|fuel IH]; intros s g Hfind Hfuel.
  - destruct s; simpl in Hfuel; lia.
  - destruct s as [name p body|name mn ex t d body|name v body|c t [e|]|a b
                  |name bs c body|sem cnt body|name vs args|v];
      cbn [driver_mutate]; simpl in Hfind, Hfuel.
    + assert (Hbody : find_produce body (func_name func) = false)
        by (destruct (p && _); [ discriminate | exact Hfind ]).
      unfold bind, ret. rewrite IH by (assumption || lia). reflexivity.
    + unfold visit_For, bind at 1, slide_over_loop.
      rewrite (slider_identity_without_producer func name mn body ∅
                 (fresh_slider g) Hfind eq_refl eq_refl).
      cbn [fresh_slider new_loop_min globals].
      assert (Hsame :
        (if serial_or_unrolled t
         then Done {| ls_body := body; ls_name := name;
                      ls_min_extent := None |} g
         else Done {| ls_body := body; ls_name := name;
                      ls_min_extent := None |} g)
        = Done {| ls_body := body; ls_name := name;
                  ls_min_extent := None |} g)
        by (destruct (serial_or_unrolled t); reflexivity).
      rewrite Hsame. cbn [ls_name ls_body ls_min_extent].
      rewrite bool_decide_eq_true_2 by reflexivity. cbn [negb].
      unfold bind, ret. rewrite IH by (assumption || lia). reflexivity.
    + unfold bind, ret. rewrite IH by (assumption || lia). reflexivity.
    + apply orb_false_iff in Hfind as [Ht He].
      unfold bind, ret. rewrite IH by (assumption || lia).
      rewrite IH by (assumption || lia). reflexivity.
    + rewrite orb_false_r in Hfind.
      unfold bind, ret. rewrite IH by (assumption || lia). reflexivity.
    + apply orb_false_iff in Hfind as [Ha Hb].
      unfold bind, ret. rewrite IH by (assumption || lia).
      rewrite IH by (assumption || lia). reflexivity.
    + unfold bind, ret. rewrite IH by (assumption || lia). reflexivity.
    + unfold bind, ret. rewrite IH by (assumption || lia). reflexivity.
    + reflexivity.
    + reflexivity.
Qed.

Lemma program_without_eligible_stage env fuel (s : Stmt) :
  (forall name f, env !! name = Some f ->
                  compute_level f = store_level f) ->
  forall g, program_mutate env fuel s g = Done s g.
Proof.
  intros Hlevels.
  induction s as [name p body IH|name mn ex t d body IH|name v body IH
                 |c t IHt|c t e0 IHt IHe|a b IHa IHb|name bs c body IH
                 |sem cnt body IH|name vs args|v]
    using Stmt_nested_ind; intros g; cbn [program_mutate];
    unfold bind, ret; rewrite ?IH, ?IHt, ?IHe, ?IHa, ?IHb;
    try reflexivity.
  destruct (env !! name) as [f|] eqn:Hf.
  - rewrite (bool_decide_eq_true_2 _ (Hlevels name f Hf)).
    rewrite IH. reflexivity.
  - rewrite IH. reflexivity.
Qed.

End NothingToSlide.

Lemma driver_without_producer_is_identity_witness :
  driver_mutate (an := Reference.analyses) Samples.h 7 Samples.nested_loops
    Samples.g0
  = Done Samples.nested_loops Samples.g0.
Proof.
  apply (driver_without_producer_is_identity (an := Reference.analyses)
           Samples.h 7 Samples.nested_loops Samples.g0).
  - reflexivity.
  - vm_compute. lia.
Defined.

(** X7.  When every stage of the environment is computed at the level at
    which it is stored (in particular when the environment is empty), the
    pass does nothing but annotate the loops: its result is the output of
    the loop-minimum annotator, the globals are untouched, and it cannot
    fail, whatever the recursion bound. *)
Theorem sliding_window_without_eligible_stage `{Analyses} (fuel : nat)
    (s : Stmt) (env : gmap string Function) (g : Globals) :
  (forall name f, env !! name = Some f ->
                  compute_level f = store_level f) ->
  sliding_window fuel s env g = Done (add_loop_min_orig s) g.
Proof.
  intros Hlevels. unfold sliding_window.
  apply program_without_eligible_stage. exact Hlevels.
Qed.

Lemma sliding_window_without_eligible_stage_witness :
  sliding_window (H := Reference.analyses) 0 Samples.stencil_program ∅
    Samples.g0
  = Done (add_loop_min_orig Samples.stencil_program) Samples.g0.
Proof.
  apply (sliding_window_without_eligible_stage (H := Reference.analyses) 0
           Samples.stencil_program ∅ Samples.g0).
  intros name f Hf. rewrite lookup_empty in Hf. discriminate Hf.
Defined.

(** ** What dimension selection returns (lines 152-201) *)

Section SelectionFacts.

Context {an : Analyses}.
Variable func : Function.
Variable loop_var : string.
Variable scope : Scope.

Local Abbreviation names_its_dimension c :=
  (forall m, min_required c = Some m ->
     exists r,
       func_args func !! dim_idx c = Some (dim c)
       /\ region_required func scope (dim c) = Some r
       /\ m = fst r
       /\ max_required c = Some (snd r)).

Lemma choose_dim_names_dimension rest : forall front i c c',
  func_args func = (front ++ rest)%list ->
  length front = i ->
  names_its_dimension c ->
  choose_dim func loop_var scope i rest c = Some c' ->
  names_its_dimension c'.
Proof.
  induction rest as [|arg rest IH]; intros front i c c' Hargs Hlen Hc Hrun.
  - injection Hrun as <-. exact Hc.
  - cbn [choose_dim] in Hrun.
    destruct (region_required func scope arg) as [r|] eqn:Hr;
      [ | discriminate ].
    assert (Hpick : names_its_dimension (picked arg i r)).
    { intros m Hm. injection Hm as <-. exists r. cbn [picked dim dim_idx].
      split; [ | split; [ exact Hr | split; reflexivity ] ].
      rewrite Hargs, <- Hlen. rewrite lookup_app_r by lia.
      rewrite Nat.sub_diag. reflexivity. }
    assert (Hnext : func_args func = ((front ++ [arg]) ++ rest)%list)
      by (rewrite <- app_assoc; exact Hargs).
    assert (Hlen' : length (front ++ [arg]) = S i)
      by (rewrite length_app; simpl; lia).
    destruct (depends_on_loop_var loop_var r).
    + destruct (negb (string_empty (dim c))).
      * injection Hrun as <-. intros m Hm. discriminate Hm.
      * exact (IH _ _ _ _ Hnext Hlen' Hpick Hrun).
    + destruct (_ && _ && _ && _).
      * exact (IH _ _ _ _ Hnext Hlen' Hpick Hrun).
      * exact (IH _ _ _ _ Hnext Hlen' Hc Hrun).
Qed.

(** X8.  Whatever dimension the selection holds when it ends, its index
    is the position of its name among the stage's dimensions, so it is in
    range, and the two bounds held are the expanded min and max of that
    very dimension. *)
Theorem selected_dimension_is_consistent (c : DimChoice) (m : Expr) :
  select_dim func loop_var scope = Some c ->
  min_required c = Some m ->
  func_args func !! dim_idx c = Some (dim c)
  /\ (dim_idx c < func_dimensions func)%nat
  /\ exists r,
       region_required func scope (dim c) = Some r
       /\ m = fst r
       /\ max_required c = Some (snd r).
Proof.
  intros Hsel Hmin. unfold select_dim in Hsel.
  destruct (choose_dim_names_dimension (func_args func) [] 0%nat no_dim c
              eq_refl eq_refl) with (m := m)
    as (r & Hidx & Hr & Hm & Hmax);
    [ intros m' Hm'; discriminate Hm' | exact Hsel | exact Hmin | ].
  split; [ exact Hidx | ]. split.
  - unfold func_dimensions. eapply lookup_lt_Some. exact Hidx.
  - exists r. split; [ exact Hr | split; assumption ].
Qed.

Local Abbreviation dependents := (dependent_dims func loop_var scope).
Local Abbreviation available :=
  (Forall (fun a => is_Some (region_required func scope a))).

Lemma choose_dim_missing_after_pick front : forall i c a rest,
  available front ->
  dependents front = [] ->
  region_required func scope a = None ->
  choose_dim func loop_var scope i (front ++ a :: rest) c = None.
Proof.
  induction front as [|arg front IH]; intros i c a rest Hav Hnone Ha.
  - simpl. rewrite Ha. reflexivity.
  - rewrite <- app_comm_cons. cbn [choose_dim].
    inversion Hav as [|? ? [r Hr] Hav']; subst.
    rewrite dependent_dims_cons in Hnone. unfold dim_depends in Hnone.
    rewrite Hr in Hnone. rewrite Hr.
    destruct (depends_on_loop_var loop_var r); [ discriminate | ].
    destruct (_ && _ && _ && _); apply IH; assumption.
Qed.

Lemma choose_dim_missing front : forall i c a rest,
  available front ->
  (length (dependents front) <= 1)%nat ->
  dim c = "" ->
  (i + length (front ++ a :: rest))%nat = func_dimensions func ->
  region_required func scope a = None ->
  choose_dim func loop_var scope i (front ++ a :: rest) c = None.
Proof.
  induction front as [|arg front IH]; intros i c a rest Hav Hfew Hdim Hlen Ha.
  - simpl. rewrite Ha. reflexivity.
  - rewrite <- app_comm_cons in *. cbn [choose_dim].
    inversion Hav as [|? ? [r Hr] Hav']; subst.
    rewrite dependent_dims_cons in Hfew. unfold dim_depends in Hfew.
    rewrite Hr in Hfew. rewrite Hr.
    destruct (depends_on_loop_var loop_var r).
    + rewrite Hdim. cbn [string_empty negb].
      apply choose_dim_missing_after_pick; [ assumption | | assumption ].
      simpl in Hfew. destruct (dependents front); [ reflexivity | ].
      simpl in Hfew. lia.
    + replace (i =? func_dimensions func - 1)%nat with false.
      2:{ symmetry. apply Nat.eqb_neq. simpl in Hlen.
          rewrite length_app in Hlen. simpl in Hlen. lia. }
      rewrite andb_false_r. cbn [andb].
      apply IH; try assumption. simpl in Hlen. lia.
Qed.

End SelectionFacts.

(** X9.  If the min or the max bound name of a dimension is missing from
    the scope, and fewer than two of the dimensions before it depend on
    the loop variable (so the loop has not left early), the visit of the
    producer stops on the internal assertion of line 165. *)
Theorem missing_bound_name_asserts `{Analyses}
    (func : Function) (loop_var : string) (loop_min : Expr)
    (scope : Scope) (name : string) (body : Stmt) (st : SliderState)
    (front rest : list string) (a : string) :
  func_args func = (front ++ a :: rest)%list ->
  Forall (fun x => is_Some (region_required func scope x)) front ->
  (length (dependent_dims func loop_var scope front) <= 1)%nat ->
  scope_contains scope ((stage_prefix func +:+ a) +:+ ".min") = false
  \/ scope_contains scope ((stage_prefix func +:+ a) +:+ ".max") = false ->
  visit_producer func loop_var loop_min scope name body st
  = Failed InternalAssert.
Proof.
  intros Hargs Hav Hfew Hmissing.
  assert (Ha : region_required func scope a = None).
  { unfold region_required. destruct Hmissing as [-> | ->];
      [ reflexivity | rewrite andb_false_r; reflexivity ]. }
  unfold visit_producer, select_dim. rewrite Hargs.
  rewrite (choose_dim_missing func loop_var scope front 0%nat no_dim a rest);
    try assumption; [ reflexivity | reflexivity | ].
  unfold func_dimensions. rewrite Hargs. reflexivity.
Qed.

(** The stencil producer met outside the bindings of its bounds. *)
Lemma missing_bound_name_asserts_witness :
  visit_producer (an := Reference.analyses) Samples.f "y" (Var "y.loop_min")
    ∅ "f" (Provide "f" [IntImm 0] [Var "x"]) (fresh_slider Samples.g0)
  = Failed InternalAssert.
Proof.
  apply (missing_bound_name_asserts (H := Reference.analyses) Samples.f "y"
           (Var "y.loop_min") ∅ "f" (Provide "f" [IntImm 0] [Var "x"])
           (fresh_slider Samples.g0) [] [] "x").
  - reflexivity.
  - constructor.
  - simpl. lia.
  - left. reflexivity.
Defined.

Lemma selected_dimension_is_consistent_witness :
  func_args Samples.h !! 1%nat = Some "z"
  /\ (1 < func_dimensions Samples.h)%nat
  /\ exists r,
       region_required Samples.h Samples.fixed_scope "z" = Some r
       /\ Var "w" = fst r
       /\ Some (Add (Var "w") (IntImm 3)) = Some (snd r).
Proof.
  apply (selected_dimension_is_consistent (an := Reference.analyses)
           Samples.h "y" Samples.fixed_scope
           {| dim := "z"; dim_idx := 1;
              min_required := Some (Var "w");
              max_required := Some (Add (Var "w") (IntImm 3)) |}
           (Var "w")).
  - vm_compute. reflexivity.
  - reflexivity.
Defined.

(** ** The replacement map after a slide (lines 330-361) *)

Lemma stage_prefix_key func d sfx :
  stage_prefix func +:+ d +:+ sfx
  = stage_key (func_name func) (length (func_updates func)) d sfx.
Proof.
  unfold stage_prefix, stage_key. rewrite !append_assoc. reflexivity.
Qed.

Lemma stage_key_inj stage d i j sfx sfx' :
  String.length sfx = String.length sfx' ->
  stage_key stage i d sfx = stage_key stage j d sfx' ->
  i = j /\ sfx = sfx'.
Proof.
  intros Hlen Heq. unfold stage_key in Heq.
  match type of Heq with
  | ?x +:+ _ = ?y +:+ _ =>
      destruct (append_inj_length x y sfx sfx') as [Hfront Hsfx];
      [ apply (f_equal String.length) in Heq;
        repeat rewrite append_length in Heq;
        repeat rewrite append_length; lia
      | exact Heq | ]
  end.
  split; [ | exact Hsfx ].
  rewrite <- !append_assoc in Hfront.
  apply append_inv_tail, append_inv_tail in Hfront.
  apply (inj (String.append _)) in Hfront.
  apply (inj pretty) in Hfront. exact Hfront.
Qed.

Lemma bound_suffix sfx :
  sfx = ".min" \/ sfx = ".max" -> String.length sfx = 4%nat.
Proof. intros [-> | ->]; reflexivity. Qed.

Section ReplacementFacts.

Context {an : Analyses}.
Variable func : Function.
Variable loop_var : string.
Variable loop_min : Expr.

Lemma rewrite_bounds_result d idx min_req max_req body stmt st s' st' :
  rewrite_bounds func loop_var loop_min d idx min_req max_req body stmt st
  = Done s' st' ->
  cover_earlier_stages func (can_slide_up loop_var min_req) d idx body stmt
  = Some s'
  /\ exists new_min new_max,
       replacements st'
       = alias_update_stages func d
           (redefine_region func (can_slide_up loop_var min_req) d
              new_min new_max (replacements st)).
Proof.
  unfold rewrite_bounds. intros Hrun.
  destruct (if single_point _ then _ else _) as [[nlm [new_min new_max]]|];
    [ | discriminate ].
  destruct (cover_earlier_stages _ _ _ _ _ _) as [covered|];
    [ | discriminate ].
  injection Hrun as <- <-. split; [ reflexivity | ].
  exists new_min, new_max. reflexivity.
Qed.

(** What a returning visit of a producer of the stage went through. *)
Lemma visit_producer_cases scope name body st s' st' :
  visit_producer func loop_var loop_min scope name body st = Done s' st' ->
  (s' = ProducerConsumer name true body
   /\ replacements st' = replacements st)
  \/ exists c min_req max_req,
       select_dim func loop_var scope = Some c
       /\ min_required c = Some min_req
       /\ max_required c = Some max_req
       /\ rewrite_bounds func loop_var loop_min (dim c) (dim_idx c)
            min_req max_req body (ProducerConsumer name true body)
            (logged loop_var st min_req max_req)
          = Done s' st'.
Proof.
  unfold visit_producer, slide. intros Hrun.
  destruct (select_dim _ _ _) as [c|]; [ | discriminate ].
  destruct (min_required c) as [min_req|] eqn:Hmin;
    [ | injection Hrun as <- <-; left; split; reflexivity ].
  destruct (max_required c) as [max_req|] eqn:Hmax; [ | discriminate ].
  destruct (updates_pure _ _ _) as [[|]|];
    [ | injection Hrun as <- <-; left; split; reflexivity | discriminate ].
  destruct (negb _ && negb _);
    [ injection Hrun as <- <-; left; split; reflexivity | ].
  destruct (no_overlap _ _ _);
    [ injection Hrun as <- <-; left; split; reflexivity | ].
  right. exists c, min_req, max_req.
  split; [ reflexivity | ]. split; [ exact Hmin | ].
  split; [ exact Hmax | exact Hrun ].
Qed.

(** X10.  A visit of a producer redefines bounds of one dimension only:
    every entry of the replacement map whose name is not a min or max
    bound name of the selected dimension, for some definition of the
    stage, is what it was before the visit. *)
Theorem slide_touches_one_dimension scope name body st s' st' c k :
  visit_producer func loop_var loop_min scope name body st = Done s' st' ->
  select_dim func loop_var scope = Some c ->
  (forall i sfx, sfx = ".min" \/ sfx = ".max" ->
                 k <> stage_key (func_name func) i (dim c) sfx) ->
  replacements st' !! k = replacements st !! k.
Proof.
  intros Hrun Hsel Hother.
  destruct (visit_producer_cases scope name body st s' st' Hrun)
    as [[_ ->] | (c' & min_req & max_req & Hsel' & _ & _ & Hrw)];
    [ reflexivity | ].
  rewrite Hsel in Hsel'. injection Hsel' as <-.
  apply rewrite_bounds_result in Hrw as (_ & new_min & new_max & ->).
  unfold alias_update_stages.
  rewrite alias_update_stages_lookup
    by (intros i sfx _ Hsfx; apply (Hother i sfx Hsfx)).
  unfold redefine_region. cbn [logged with_globals replacements].
  destruct (can_slide_up loop_var min_req);
    (rewrite lookup_insert_ne; [ reflexivity | ]);
    rewrite stage_prefix_key; apply not_eq_sym, Hother; auto.
Qed.

Lemma alias_update_stage_hit d r i sfx :
  sfx = ".min" \/ sfx = ".max" ->
  alias_update_stage func d r i !! stage_key (func_name func) i d sfx
  = Some (Var (stage_prefix func +:+ d +:+ sfx)).
Proof.
  intros [-> | ->]; unfold alias_update_stage; fold (stage_key
    (func_name func) i d ".min"); fold (stage_key (func_name func) i d ".max").
  - rewrite lookup_insert_ne, lookup_insert_eq; [ reflexivity | ].
    intros Heq. apply stage_key_inj in Heq as [_ Hx];
      [ discriminate Hx | reflexivity ].
  - rewrite lookup_insert_eq. reflexivity.
Qed.

Lemma alias_update_stage_keep d r i j sfx :
  sfx = ".min" \/ sfx = ".max" ->
  i <> j ->
  alias_update_stage func d r j !! stage_key (func_name func) i d sfx
  = r !! stage_key (func_name func) i d sfx.
Proof.
  intros Hsfx Hne. unfold alias_update_stage.
  fold (stage_key (func_name func) j d ".min").
  fold (stage_key (func_name func) j d ".max").
  rewrite !lookup_insert_ne; [ reflexivity | | ];
    intros Heq; apply stage_key_inj in Heq as [Hij _];
    try (symmetry in Hij; contradiction);
    rewrite (bound_suffix sfx Hsfx); reflexivity.
Qed.

Lemma alias_update_stages_hit d i sfx :
  sfx = ".min" \/ sfx = ".max" ->
  forall l r,
    In i l
    \/ r !! stage_key (func_name func) i d sfx
       = Some (Var (stage_prefix func +:+ d +:+ sfx)) ->
    foldl (alias_update_stage func d) r l
      !! stage_key (func_name func) i d sfx
    = Some (Var (stage_prefix func +:+ d +:+ sfx)).
Proof.
  intros Hsfx. induction l as [|j l IH]; intros r Hin.
  - destruct Hin as [[] | Hr]. exact Hr.
  - simpl. apply IH. destruct (decide (i = j)) as [<-|Hne].
    + right. apply alias_update_stage_hit. exact Hsfx.
    + destruct Hin as [[Hj | Hin] | Hr].
      * symmetry in Hj. contradiction.
      * left. exact Hin.
      * right. rewrite alias_update_stage_keep by assumption. exact Hr.
Qed.

(** X11.  After a slide, the min and max bound names of the sliding
    dimension of every earlier definition of the stage (stage index below
    the number of updates) are redefined as the plain variable of the last
    definition's bound name, so that all definitions share one region. *)
Theorem update_stages_alias_last_stage scope name body st s' st' c
    min_req max_req i sfx :
  select_dim func loop_var scope = Some c ->
  min_required c = Some min_req ->
  max_required c = Some max_req ->
  updates_pure (func_updates func) (dim c) (dim_idx c) = Some true ->
  can_slide_up loop_var min_req || can_slide_down loop_var max_req = true ->
  no_overlap loop_var min_req max_req = false ->
  visit_producer func loop_var loop_min scope name body st = Done s' st' ->
  (i < length (func_updates func))%nat ->
  sfx = ".min" \/ sfx = ".max" ->
  replacements st' !! stage_key (func_name func) i (dim c) sfx
  = Some (Var (stage_prefix func +:+ dim c +:+ sfx)).
Proof.
  intros Hsel Hmin Hmax Hpure Hdir Hno Hrun Hi Hsfx.
  rewrite (visit_producer_selected func loop_var loop_min scope name body st
             c min_req max_req Hsel Hmin Hmax Hpure) in Hrun.
  rewrite slide_rewrites in Hrun by assumption.
  apply rewrite_bounds_result in Hrun as (_ & new_min & new_max & ->).
  unfold alias_update_stages. apply alias_update_stages_hit; [ exact Hsfx | ].
  left. apply in_seq. lia.
Qed.


End ReplacementFacts.

(** The stage with one update, slid over [y], in a slider that holds a
    replacement for a name of another stage. *)
Lemma slide_touches_one_dimension_witness :
  match visit_producer (an := Reference.analyses) Samples.f_update "y"
          (Var "y.loop_min") Samples.update_scope "f"
          (Provide "f" [IntImm 0] [Var "x"])
          {| replacements := {[ "g.min" := IntImm 7 ]};
             new_loop_min := None; globals := Samples.g0 |} with
  | Done _ st' => replacements st' !! "g.min" = Some (IntImm 7)
  | Failed _ => False
  end.
Proof.
  destruct (visit_producer (an := Reference.analyses) Samples.f_update "y"
              (Var "y.loop_min") Samples.update_scope "f"
              (Provide "f" [IntImm 0] [Var "x"])
              {| replacements := {[ "g.min" := IntImm 7 ]};
                 new_loop_min := None; globals := Samples.g0 |})
    as [s' st'|f] eqn:Hrun.
  - rewrite (slide_touches_one_dimension (an := Reference.analyses)
               Samples.f_update "y" (Var "y.loop_min") Samples.update_scope
               "f" (Provide "f" [IntImm 0] [Var "x"]) _ s' st'
               Samples.stencil_choice "g.min" Hrun).
    + reflexivity.
    + vm_compute. reflexivity.
    + intros i sfx Hsfx Heq. apply (f_equal String.length) in Heq.
      unfold stage_key in Heq. repeat rewrite append_length in Heq.
      destruct Hsfx as [-> | ->]; simpl in Heq; lia.
  - vm_compute in Hrun. discriminate Hrun.
Defined.

Lemma update_stages_alias_last_stage_witness :
  replacements Samples.update_slid_state !! "f.s0.x.max"
  = Some (Var "f.s1.x.max").
Proof.
  apply (update_stages_alias_last_stage (an := Reference.analyses)
           Samples.f_update "y" (Var "y.loop_min") Samples.update_scope "f"
           (Provide "f" [IntImm 0] [Var "x"]) (fresh_slider Samples.g0)
           Samples.update_slid_stmt Samples.update_slid_state
           Samples.stencil_choice (Var "y") (Add (Var "y") (IntImm 2))
           0%nat ".max");
    first [ vm_compute; reflexivity | simpl; lia | right; reflexivity ].
Defined.


(** ** Bindings and single-trip loops in the slider (lines 382-423) *)

Section BindingFacts.

Context {an : Analyses}.
Variable func : Function.
Variable loop_var : string.
Variable loop_min : Expr.

Local Abbreviation run := (mutate func loop_var loop_min).

(** X13.  The visit of a binding consumes the replacement recorded for
    its name: the binding comes back around the mutated body, with the
    recorded expression as its value if there is one and its own value
    otherwise; afterwards the map holds no entry for the name, and every
    other entry is as the visit of the body left it. *)
Theorem binding_consumes_its_replacement scope name value body st s' st' :
  run scope (LetStmt name value body) st = Done s' st' ->
  exists body' st1,
    run (scope_push name (simplify (expand_expr value scope)) scope) body st
    = Done body' st1
    /\ s' = LetStmt name (default value (replacements st1 !! name)) body'
    /\ replacements st' !! name = None
    /\ (forall k, k <> name ->
                  replacements st' !! k = replacements st1 !! k)
    /\ new_loop_min st' = new_loop_min st1
    /\ globals st' = globals st1.
Proof.
  cbn [mutate]. unfold visit_LetStmt. intros Hrun.
  apply bind_done in Hrun as (body' & st1 & Hbody & Hlet).
  exists body', st1. split; [ exact Hbody | ].
  destruct (replacements st1 !! name) as [v|] eqn:Hrep;
    injection Hlet as <- <-; cbn [default replacements new_loop_min globals].
  - split; [ reflexivity | ]. split; [ apply lookup_delete_eq | ].
    split; [ | split; reflexivity ].
    intros k Hk. apply lookup_delete_ne. auto.
  - split; [ reflexivity | ]. split; [ exact Hrep | ].
    split; [ reflexivity | split; reflexivity ].
Qed.

(** X14.  A loop whose expanded extent is the constant one is visited as
    a binding of its variable to its expanded minimum and comes back with
    its own name, minimum, extent, type and device around the mutated
    body.  The internal assertion of line 393 cannot fail: the visit
    fails only if the visit of the body does.  A replacement recorded
    under the loop's own name is removed from the map without being
    used. *)
Theorem single_trip_loop_is_repacked scope name min extent for_type
    device_api body st :
  is_const_one (expand_expr extent scope) = true ->
  run scope (For name min extent for_type device_api body) st
  = match run (scope_push name
                 (simplify (expand_expr (expand_expr min scope) scope))
                 scope) body st with
    | Done body' st1 =>
        Done (For name min extent for_type device_api body')
          {| replacements := delete name (replacements st1);
             new_loop_min := new_loop_min st1;
             globals := globals st1 |}
    | Failed f => Failed f
    end.
Proof.
  intros Hone. cbn [mutate]. rewrite Hone.
  unfold visit_LetStmt, bind.
  destruct (run _ body st) as [body' st1|f]; [ | reflexivity ].
  destruct (replacements st1 !! name) as [v|] eqn:Hrep; [ reflexivity | ].
  unfold ret. rewrite (delete_id _ _ Hrep). destruct st1; reflexivity.
Qed.

End BindingFacts.

Lemma binding_consumes_its_replacement_witness :
  match mutate (an := Reference.analyses) Samples.f "y" (Var "y.loop_min")
          ∅ Samples.stencil_body (fresh_slider Samples.g0) with
  | Done s' st' =>
      exists body' st1,
        mutate (an := Reference.analyses) Samples.f "y" (Var "y.loop_min")
          (scope_push "f.s0.x.max" (Add (Var "y") (IntImm 2)) ∅)
          (LetStmt "f.s0.x.min" (Var "y")
             (Block Samples.produce_f Samples.consume_f))
          (fresh_slider Samples.g0)
        = Done body' st1
        /\ s' = LetStmt "f.s0.x.max"
                  (default (Add (Var "y") (IntImm 2))
                     (replacements st1 !! "f.s0.x.max")) body'
        /\ replacements st' !! "f.s0.x.max" = None
  | Failed _ => False
  end.
Proof.
  destruct (mutate (an := Reference.analyses) Samples.f "y"
              (Var "y.loop_min") ∅ Samples.stencil_body
              (fresh_slider Samples.g0)) as [s' st'|f] eqn:Hrun.
  - destruct (binding_consumes_its_replacement (an := Reference.analyses)
                Samples.f "y" (Var "y.loop_min") ∅ "f.s0.x.max"
                (Add (Var "y") (IntImm 2))
                (LetStmt "f.s0.x.min" (Var "y")
                   (Block Samples.produce_f Samples.consume_f))
                (fresh_slider Samples.g0) s' st' Hrun)
      as (body' & st1 & Hbody & Hs & Hgone & _).
    exists body', st1. split; [ exact Hbody | ].
    split; [ exact Hs | exact Hgone ].
  - vm_compute in Hrun. discriminate Hrun.
Defined.

Lemma single_trip_loop_is_repacked_witness :
  mutate (an := Reference.analyses) Samples.f "y" (Var "y.loop_min")
    Samples.stencil_scope Samples.single_trip_loop (fresh_slider Samples.g0)
  = Done
      (For "xo" (IntImm 0) (IntImm 1) Serial DeviceNone
         (Block Samples.produce_f
            (ProducerConsumer "f" false
               (IfThenElse
                  (Call "likely_if_innermost"
                     [GE (Var "y") (Var "y.loop_min.orig")])
                  (Provide "g" [Var "f"] [Var "y"]) None))))
      {| replacements :=
           {[ "f.s0.x.min" :=
                Add (Add (Sub (Var "y") (IntImm 1)) (IntImm 2))
                    (IntImm 1) ]};
         new_loop_min := Some (Sub (Var "y.loop_min") (IntImm 2));
         globals := {| logger := Some []; name_counter := 1 |} |}.
Proof.
  unfold Samples.single_trip_loop.
  rewrite (single_trip_loop_is_repacked (an := Reference.analyses)
             Samples.f "y" (Var "y.loop_min") Samples.stencil_scope "xo"
             (IntImm 0) (IntImm 1) Serial DeviceNone
             (Block Samples.produce_f Samples.consume_f)
             (fresh_slider Samples.g0) eq_refl).
  vm_compute. reflexivity.
Defined.

(** ** The purity check as a decision (lines 125-140) *)

(** X15.  On a definition that has an argument at the index, in itself
    and in all its specializations at any depth, [is_dim_always_pure]
    returns a verdict, and the verdict is true exactly when that argument
    is the variable of the dimension's name in the definition and in
    every specialization, at any depth; the conditions of the
    specializations play no part. *)
Theorem is_dim_always_pure_decides (def : FuncDef) (dim : string)
    (dim_idx : nat) :
  indexable dim_idx def ->
  (is_dim_always_pure def dim dim_idx = Some true
   /\ always_pure dim dim_idx def)
  \/ (is_dim_always_pure def dim dim_idx = Some false
      /\ ~ always_pure dim dim_idx def).
Proof.
  intros Hidx.
  destruct (is_dim_always_pure_defined dim dim_idx def Hidx) as [[|] Hb].
  - left. split; [ exact Hb | ]. apply is_dim_always_pure_true. exact Hb.
  - right. split; [ exact Hb | ]. intros Hpure.
    apply is_dim_always_pure_true in Hpure. congruence.
Qed.

(** An update whose only specialization scatters. *)
Lemma is_dim_always_pure_decides_witness :
  is_dim_always_pure
    (MkDef [Var "x"]
       [MkSpec (Var "c") (MkDef [Mul (Var "x") (IntImm 2)] [])]) "x" 0
  = Some false
  /\ ~ always_pure "x" 0
         (MkDef [Var "x"]
            [MkSpec (Var "c") (MkDef [Mul (Var "x") (IntImm 2)] [])]).
Proof.
  destruct (is_dim_always_pure_decides
              (MkDef [Var "x"]
                 [MkSpec (Var "c") (MkDef [Mul (Var "x") (IntImm 2)] [])])
              "x" 0) as [[Htrue _] | Hfalse].
  - constructor; [ simpl; eauto | ]. constructor; [ | constructor ].
    constructor; [ simpl; eauto | constructor ].
  - discriminate Htrue.
  - exact Hfalse.
Defined.

(** ** What the driver can make of a loop (lines 439-501) *)

(** X16.  Whatever the driver returns for a loop is one of two things:
    a loop with the same name, minimum, extent, type and device; or, only
    for a serial or unrolled loop whose minimum is a variable, the four
    bindings of [<loop>.n.loop_min], [.loop_min.orig], [.loop_extent] and
    [.loop_max] around a loop named [<loop>.n] of the same type and
    device.  A loop is never renamed without the bindings, and never bound
    without being renamed. *)
Theorem driver_loop_results `{Analyses} (func : Function) (fuel : nat)
    (name : string) (min extent : Expr) (for_type : ForType)
    (device_api : DeviceAPI) (body : Stmt) (g : Globals) (s' : Stmt)
    (g' : Globals) :
  driver_mutate func (S fuel)
    (For name min extent for_type device_api body) g = Done s' g' ->
  (exists body', s' = For name min extent for_type device_api body')
  \/ (serial_or_unrolled for_type = true
      /\ exists min_name slider_min body',
           min = Var min_name
           /\ s' = wrap_new_loop (name +:+ ".n") slider_min
                     (Add (Sub (Var (loop_max_name_of min_name))
                               (Var ((name +:+ ".n") +:+ ".loop_min")))
                          (IntImm 1))
                     (For (name +:+ ".n")
                        (Var ((name +:+ ".n") +:+ ".loop_min"))
                        (Var ((name +:+ ".n") +:+ ".loop_extent"))
                        for_type device_api body')).
Proof.
  cbn [driver_mutate]. unfold visit_For. intros Hrun.
  apply bind_done in Hrun as (r & g1 & Hslide & Hrest).
  apply bind_done in Hrest as (body' & g2 & Hbody & Hret).
  unfold slide_over_loop in Hslide.
  destruct (serial_or_unrolled for_type) eqn:Hserial.
  - destruct (mutate _ _ _ _ _ _) as [new_body st|]; [ | discriminate ].
    destruct (new_loop_min st) as [slider_min|].
    + destruct min as [|min_name| | | | |]; try discriminate.
      injection Hslide as <- _. cbn [ls_name ls_body ls_min_extent] in *.
      apply ret_done in Hret as [<- _].
      rewrite bool_decide_eq_false_2 by apply renamed_loop_differs.
      right. split; [ reflexivity | ].
      exists min_name, slider_min, body'. split; reflexivity.
    + injection Hslide as <- _. cbn [ls_name ls_body ls_min_extent] in *.
      apply ret_done in Hret as [<- _].
      rewrite bool_decide_eq_true_2 by reflexivity.
      left. exists body'. reflexivity.
  - injection Hslide as <- _. cbn [ls_name ls_body ls_min_extent] in *.
    apply ret_done in Hret as [<- _].
    rewrite bool_decide_eq_true_2 by reflexivity.
    left. exists body'. reflexivity.
Qed.

(** ** The loop-minimum annotator (lines 553-564) *)

(** X17.  In the annotator's output every loop sits directly under a
    binding of [<loop>.loop_min.orig] to the variable [<loop>.loop_min];
    the annotator adds nothing else: producers are found in the output
    exactly where they were found in the input. *)
Theorem annotator_binds_every_loop (s : Stmt) :
  loops_annotated (add_loop_min_orig s)
  /\ forall f, find_produce (add_loop_min_orig s) f = find_produce s f.
Proof.
  induction s as [name p body IH|name mn ex t d body IH|name v body IH
                 |c t IHt|c t e IHt IHe|a b IHa IHb|name bs c body IH
                 |sem cnt body IH|name vs args|v]
    using Stmt_nested_ind; cbn [add_loop_min_orig];
    try destruct IH as [IH Hf]; try destruct IHt as [IHt Hft];
    try destruct IHe as [IHe Hfe]; try destruct IHa as [IHa Hfa];
    try destruct IHb as [IHb Hfb];
    (split; [ constructor; assumption | intros f; simpl ]);
    rewrite ?Hf, ?Hft, ?Hfe, ?Hfa, ?Hfb; reflexivity.
Qed.

(** ** The name of the loop maximum (line 461) *)

(** X18.  The name of the loop maximum is the name of the loop minimum
    with its last two characters replaced by "ax", whatever those two
    characters are; a name of fewer than two characters is kept whole and
    "ax" is appended. *)
Theorem loop_max_name_replaces_two_characters :
  (forall (front : string) (c1 c2 : Ascii.ascii),
     loop_max_name_of (front +:+ String c1 (String c2 ""))
     = front +:+ "ax")
  /\ (forall c : Ascii.ascii, loop_max_name_of (String c "") = String c "ax")
  /\ loop_max_name_of "" = "ax".
Proof.
  split; [ | split; [ intros c; reflexivity | reflexivity ] ].
  intros front c1 c2. unfold loop_max_name_of.
  rewrite append_length.
  change (String.length (String c1 (String c2 ""))) with 2%nat.
  destruct (Nat.ltb_spec (String.length front + 2) 2) as [Hlt|_].
  - assert (String.length front = 0%nat) as Hempty by lia.
    destruct front; [ | discriminate Hempty ]. simpl in Hlt. lia.
  - rewrite Nat.add_sub, substring_append_prefix. reflexivity.
Qed.

(** ** The dependence check reports occurring variables only *)

(** X19.  [expr_depends_on_var] reports a dependence only on a variable
    that occurs in the expression. *)
Theorem dependence_needs_occurrence (e : Expr) (v : string) :
  expr_depends_on_var e v = true -> In v (expr_vars e).
Proof.
  induction e as [k|name|op a b IHa IHb|a IHa|c t f IHc IHt IHf
                 |name value body IHv IHb|name args IHargs]
    using Expr_nested_ind; simpl; intros Hdep.
  - discriminate.
  - apply bool_decide_eq_true in Hdep. left. exact Hdep.
  - apply in_or_app. apply orb_true_iff in Hdep as [Ha | Hb]; auto.
  - auto.
  - apply orb_true_iff in Hdep as [Hct | Hf].
    + apply orb_true_iff in Hct as [Hc | Ht].
      * apply in_or_app. auto.
      * apply in_or_app. right. apply in_or_app. auto.
    + apply in_or_app. right. apply in_or_app. auto.
  - apply in_or_app. apply orb_true_iff in Hdep as [Hv | Hb]; [ auto | ].
    destruct (bool_decide (name = v)); [ discriminate | auto ].
  - induction args as [|a args IH]; [ discriminate | ].
    simpl in Hdep |- *. inversion IHargs as [|? ? Hhead Htail]; subst.
    apply in_or_app. apply orb_true_iff in Hdep as [Ha | Hrest]; auto.
Qed.

Lemma dependence_needs_occurrence_witness :
  In "y" (expr_vars (Let "t" (Var "y") (Add (Var "t") (IntImm 1)))).
Proof.
  apply (dependence_needs_occurrence
           (Let "t" (Var "y") (Add (Var "t") (IntImm 1))) "y").
  reflexivity.
Defined.

Lemma driver_loop_results_witness :
  match driver_mutate (an := Reference.analyses) Samples.f 9
          (Samples.stencil_loop Serial) Samples.g0 with
  | Done s' _ =>
      (exists body',
         s' = For "y" (Var "y.loop_min") (Var "y.loop_extent") Serial
                DeviceNone body')
      \/ (serial_or_unrolled Serial = true
          /\ exists min_name slider_min body',
               Var "y.loop_min" = Var min_name
               /\ s' = wrap_new_loop ("y" +:+ ".n") slider_min
                         (Add (Sub (Var (loop_max_name_of min_name))
                                   (Var (("y" +:+ ".n") +:+ ".loop_min")))
                              (IntImm 1))
                         (For ("y" +:+ ".n")
                            (Var (("y" +:+ ".n") +:+ ".loop_min"))
                            (Var (("y" +:+ ".n") +:+ ".loop_extent"))
                            Serial DeviceNone body'))
  | Failed _ => False
  end.
Proof.
  destruct (driver_mutate (an := Reference.analyses) Samples.f 9
              (Samples.stencil_loop Serial) Samples.g0)
    as [s' g'|f] eqn:Hrun.
  - apply (driver_loop_results (H := Reference.analyses) Samples.f 8 "y"
             (Var "y.loop_min") (Var "y.loop_extent") Serial DeviceNone
             Samples.stencil_body Samples.g0 s' g' Hrun).
  - vm_compute in Hrun. discriminate Hrun.
Defined.

(** ** The slider keeps the producers (lines 142-423) *)

(** X20.  The per-loop slider neither removes nor adds a producer: for
    every stage name, a producer of it is found in the result exactly
    when one is found in the input. *)
Theorem slider_keeps_producers `{Analyses} (func : Function)
    (loop_var : string) (loop_min : Expr) (s : Stmt) :
  forall (scope : Scope) (st : SliderState) (s' : Stmt)
         (st' : SliderState),
    mutate func loop_var loop_min scope s st = Done s' st' ->
    forall f, find_produce s' f = find_produce s f.
Proof.
  induction s as [name p body IH|name mn ex t d body IH|name v body IH
                 |c t IHt|c t e0 IHt IHe|a b IHa IHb|name bs c body IH
                 |sem cnt body IH|name vs args|v]
    using Stmt_nested_ind; intros scope st s' st' Hrun f;
    cbn [mutate] in Hrun.
  - destruct p.
    + destruct (negb _).
      * apply bind_done in Hrun as (b' & st1 & Hb & Hret).
        apply ret_done in Hret as [<- _]. simpl.
        rewrite (IH _ _ _ _ Hb f). reflexivity.
      * destruct (visit_producer_cases func loop_var loop_min scope name
                    body st s' st' Hrun)
          as [[-> _] | (c & mn & mx & _ & _ & _ & Hrw)]; [ reflexivity | ].
        apply rewrite_bounds_result in Hrw as (Hcover & _).
        unfold cover_earlier_stages in Hcover.
        destruct (func_updates func);
          [ injection Hcover as <-; reflexivity | ].
        destruct (box_provided body (func_name func) !! dim_idx c);
          [ | discriminate ].
        destruct (can_slide_up loop_var mn); injection Hcover as <-;
          reflexivity.
    + destruct (_ && _);
        apply bind_done in Hrun as (b' & st1 & Hb & Hret);
        apply ret_done in Hret as [<- _]; simpl;
        rewrite (IH _ _ _ _ Hb f), ?orb_false_r; reflexivity.
  - destruct (is_const_one _).
    + apply bind_done in Hrun as (l & st1 & Hl & Hret).
      unfold visit_LetStmt in Hl.
      apply bind_done in Hl as (b' & st2 & Hb & Hlet).
      assert (Hl' : exists v, l = LetStmt name v b')
        by (destruct (replacements st2 !! name);
            injection Hlet as <- _; eauto).
      destruct Hl' as [v ->]. apply ret_done in Hret as [<- _]. simpl.
      apply (IH _ _ _ _ Hb f).
    + destruct (_ || _).
      * apply ret_done in Hrun as [<- _]. reflexivity.
      * apply bind_done in Hrun as (b' & st1 & Hb & Hret).
        apply ret_done in Hret as [<- _]. simpl. apply (IH _ _ _ _ Hb f).
  - unfold visit_LetStmt in Hrun.
    apply bind_done in Hrun as (b' & st2 & Hb & Hlet).
    destruct (replacements st2 !! name);
      injection Hlet as <- _; simpl; apply (IH _ _ _ _ Hb f).
  - apply bind_done in Hrun as (t' & st1 & Ht & Hret).
    apply ret_done in Hret as [<- _]. simpl.
    rewrite (IHt _ _ _ _ Ht f). reflexivity.
  - apply bind_done in Hrun as (t' & st1 & Ht & Hrest).
    apply bind_done in Hrest as (e' & st2 & He & Hret).
    apply ret_done in Hret as [<- _]. simpl.
    rewrite (IHt _ _ _ _ Ht f), (IHe _ _ _ _ He f). reflexivity.
  - apply bind_done in Hrun as (a' & st1 & Ha & Hrest).
    apply bind_done in Hrest as (b' & st2 & Hb & Hret).
    apply ret_done in Hret as [<- _]. simpl.
    rewrite (IHa _ _ _ _ Ha f), (IHb _ _ _ _ Hb f). reflexivity.
  - apply bind_done in Hrun as (b' & st1 & Hb & Hret).
    apply ret_done in Hret as [<- _]. simpl. apply (IH _ _ _ _ Hb f).
  - apply bind_done in Hrun as (b' & st1 & Hb & Hret).
    apply ret_done in Hret as [<- _]. simpl. apply (IH _ _ _ _ Hb f).
  - apply ret_done in Hrun as [<- _]. reflexivity.
  - apply ret_done in Hrun as [<- _]. reflexivity.
Qed.

Lemma slider_keeps_producers_witness :
  match mutate (an := Reference.analyses) Samples.f "y" (Var "y.loop_min")
          ∅ Samples.stencil_body (fresh_slider Samples.g0) with
  | Done s' _ => find_produce s' "f" = true
  | Failed _ => False
  end.
Proof.
  destruct (mutate (an := Reference.analyses) Samples.f "y"
              (Var "y.loop_min") ∅ Samples.stencil_body
              (fresh_slider Samples.g0)) as [s' st'|f] eqn:Hrun.
  - rewrite (slider_keeps_producers (H := Reference.analyses) Samples.f "y"
               (Var "y.loop_min") Samples.stencil_body ∅
               (fresh_slider Samples.g0) s' st' Hrun "f").
    reflexivity.
  - vm_compute in Hrun. discriminate Hrun.
Defined.
